(** * Nitrado API converter: the OpenAPI conversion engine

    A shallow embedding of the conversion engine of [NitradoAPIConverter]
    (the class of the repository's main module) together with the
    properties its specification states about it.

    Conventions of the embedding.
    - A JavaScript string is a [string] whose characters are its code
      units, each below 256 (the Latin-1 range); the character classes of
      the regular expressions ([a-z], [\w], ...) are those of the code, and
      white space and the case conversions are those of the language on
      this range.
    - An optional property of a JSON record is an [option]; [None] is the
      absent property.  A property that is only tested for truthiness is a
      [bool].
    - A plain object used as a dictionary is the [gmap string _] of its own
      properties.  Reading [obj[key]] also finds what every object inherits
      from [Object.prototype], and assigning to [obj['__proto__']] replaces
      the prototype instead of creating a property: [Obj] below has both.
      The built-in objects are as the language defines them when a call
      starts.  The [Set] of used operation identifiers is a [gset string].
    - The counter of the ledger is a [nat], and [pretty] writes it in
      decimal as the template literal does.
    - Methods that mutate [this] or an argument take the mutated part as an
      argument and return its new value.
    - The only loop that is not bounded by its input, the [while] of
      [ensureUniqueOperationId], runs on fuel; it is shown below that the
      fuel it is given always suffices.
    - Logging is left out.

    The file has three parts: the embedding of the code, the notions that
    the statements use, and the properties with their proofs. *)

From Stdlib Require Import Ascii.
From stdpp Require Import base option list gmap strings pretty.

(** ** Characters and strings *)

Module Char.

Definition between (lo hi : nat) (c : ascii) : bool :=
  (lo <=? nat_of_ascii c)%nat && (nat_of_ascii c <=? hi)%nat.

(** [[a-z]] *)
Definition isLower (c : ascii) : bool := between 97 122 c.
(** [[A-Z]] *)
Definition isUpper (c : ascii) : bool := between 65 90 c.
(** [[0-9]] *)
Definition isDigit (c : ascii) : bool := between 48 57 c.
(** [[a-zA-Z0-9]] *)
Definition isAlnum (c : ascii) : bool := isLower c || isUpper c || isDigit c.
(** [\w], that is [[A-Za-z0-9_]] *)
Definition isWord (c : ascii) : bool := isAlnum c || Ascii.eqb c "_".
(** The white space that [String.prototype.trim] removes and that [\s]
    matches: tab to carriage return, space, and the no-break space
    U+00A0. *)
Definition isWhiteSpace (c : ascii) : bool :=
  between 9 13 c || Ascii.eqb c " " || (nat_of_ascii c =? 160)%nat.
(** The capital letters U+00C0 to U+00DE (all but the sign U+00D7) and the
    small letters U+00E0 to U+00FE (all but the sign U+00F7), which are 32
    apart. *)
Definition isLatinUpper (c : ascii) : bool :=
  between 192 222 c && negb (nat_of_ascii c =? 215)%nat.
Definition isLatinLower (c : ascii) : bool :=
  between 224 254 c && negb (nat_of_ascii c =? 247)%nat.

Definition toUpper (c : ascii) : ascii :=
  if isLower c || isLatinLower c then ascii_of_nat (nat_of_ascii c - 32) else c.
Definition toLower (c : ascii) : ascii :=
  if isUpper c || isLatinUpper c then ascii_of_nat (nat_of_ascii c + 32) else c.

(** The upper-case form of one character as [toUpperCase] writes it: the
    sharp s U+00DF becomes two letters.  The capitals of U+00B5 and U+00FF
    lie beyond the range, and these two characters are kept. *)
Definition upper (c : ascii) : string :=
  if (nat_of_ascii c =? 223)%nat then String "S" (String "S" EmptyString)
  else String (toUpper c) EmptyString.

End Char.

(** [s.toLowerCase()] and [s.toUpperCase()] *)
Fixpoint toLowerCase (s : string) : string :=
  match s with
  | EmptyString => EmptyString
  | String c r => String (Char.toLower c) (toLowerCase r)
  end.

Fixpoint toUpperCase (s : string) : string :=
  match s with
  | EmptyString => EmptyString
  | String c r => Char.upper c +:+ toUpperCase r
  end.

(** [s.startsWith(p)] *)
Fixpoint startsWith (s p : string) {struct p} : bool :=
  match p, s with
  | EmptyString, _ => true
  | String _ _, EmptyString => false
  | String a p', String b s' => Ascii.eqb a b && startsWith s' p'
  end.

(** [s.includes(sub)] *)
Fixpoint includes (s sub : string) : bool :=
  startsWith s sub ||
  match s with
  | EmptyString => false
  | String _ r => includes r sub
  end.

(** [s.substring(1)] *)
Definition substring1 (s : string) : string :=
  match s with
  | EmptyString => s
  | String _ r => r
  end.

(** The characters of [s] that satisfy [keep], in order: the effect of
    [s.replace(/[...]/g, '')] for a character class whose complement is
    [keep]. *)
Fixpoint keepChars (keep : ascii -> bool) (s : string) : string :=
  match s with
  | EmptyString => EmptyString
  | String c r => if keep c then String c (keepChars keep r) else keepChars keep r
  end.

(** [s.replace(/[^a-zA-Z0-9]/g, '')] *)
Definition stripNonAlphanumeric (s : string) : string :=
  keepChars Char.isAlnum s.

(** [s.trim()] *)
Fixpoint trimStart (s : string) : string :=
  match s with
  | EmptyString => s
  | String c r => if Char.isWhiteSpace c then trimStart r else s
  end.

Fixpoint trimEnd (s : string) : string :=
  match s with
  | EmptyString => EmptyString
  | String c r =>
      match trimEnd r with
      | EmptyString => if Char.isWhiteSpace c then EmptyString else String c EmptyString
      | r' => String c r'
      end
  end.

Definition trim (s : string) : string := trimEnd (trimStart s).

(** Truthiness of a string value and of an optional string property: the
    empty string and the absent property are falsy. *)
Definition nonEmpty (s : string) : bool :=
  match s with
  | EmptyString => false
  | String _ _ => true
  end.

Definition truthy (v : option string) : bool :=
  match v with
  | Some s => nonEmpty s
  | None => false
  end.

(** [v || d] for an optional string property [v] *)
Definition orElse (v : option string) (d : string) : string :=
  match v with
  | Some s => if nonEmpty s then s else d
  | None => d
  end.

(** [s.split('/')] *)
Fixpoint splitSlash (s : string) : list string :=
  match s with
  | EmptyString => [EmptyString]
  | String c r =>
      if Ascii.eqb c "/" then EmptyString :: splitSlash r
      else match splitSlash r with
           | h :: t => String c h :: t
           | [] => [String c EmptyString]
           end
  end.

(** [parts.join('')] *)
Definition join (parts : list string) : string :=
  foldr String.append EmptyString parts.

(** The longest prefix of [s] made of word characters, and what follows
    it: the text a greedy [\w*] consumes at the start of [s]. *)
Fixpoint takeWord (s : string) : string :=
  match s with
  | EmptyString => EmptyString
  | String c r => if Char.isWord c then String c (takeWord r) else EmptyString
  end.

Fixpoint dropWord (s : string) : string :=
  match s with
  | EmptyString => s
  | String c r => if Char.isWord c then dropWord r else s
  end.

(** ** Plain objects used as dictionaries *)

Module Obj.

(** The names of the properties of [Object.prototype], which every plain
    object inherits: eleven methods and the accessor [__proto__]. *)
Definition prototypeNames : list string :=
  [ "constructor"; "__defineGetter__"; "__defineSetter__"; "hasOwnProperty";
    "__lookupGetter__"; "__lookupSetter__"; "isPrototypeOf"; "propertyIsEnumerable";
    "toString"; "valueOf"; "__proto__"; "toLocaleString" ].

Definition inherited (key : string) : bool :=
  existsb (String.eqb key) prototypeNames.

(** The truthiness of [obj[key]] for an object [obj] whose own properties
    hold objects or arrays: the key is an own property, or [obj[key]] is
    the function or object that [obj] inherits under this name. *)
Definition truthyAt {A : Type} (obj : gmap string A) (key : string) : bool :=
  bool_decide (is_Some (obj !! key)) || inherited key.

(** [obj[key] = value] for a value that is an object: the own properties
    afterwards.  The key [__proto__] is the accessor of [Object.prototype],
    which makes [value] the prototype of [obj] and creates no property. *)
Definition write {A : Type} (key : string) (value : A) (obj : gmap string A)
  : gmap string A :=
  if String.eqb key "__proto__" then obj else <[key := value]> obj.

End Obj.

(** ** Path normalizer *)

(** [url.replace(/:(\w+)/g, '{$1}')]: scanning from the left, a colon
    followed by at least one word character is replaced, together with the
    whole run of word characters, by the run in braces; the scan resumes
    after the run. *)
Fixpoint normalizePath (url : string) : string :=
  match url with
  | EmptyString => EmptyString
  | String c r =>
      if Ascii.eqb c ":" && nonEmpty (takeWord r)
      then "{" +:+ takeWord r +:+ "}" +:+ normalizePath (dropWord r)
      else String c (normalizePath r)
  end.

(** [path.match(/\{(\w+)\}/g) || []]: the brace tokens of [path], braces
    included, from left to right. *)
Fixpoint matchBraceTokens (path : string) : list string :=
  match path with
  | EmptyString => []
  | String c r =>
      if Ascii.eqb c "{" && nonEmpty (takeWord r) && startsWith (dropWord r) "}"
      then ("{" +:+ takeWord r +:+ "}") :: matchBraceTokens (substring1 (dropWord r))
      else matchBraceTokens r
  end.

(** ** Operation identifier synthesizer *)

(** [str.replace(/^[a-z]/, letter => letter.toUpperCase())] *)
Definition capitalizeFirst (str : string) : string :=
  match str with
  | EmptyString => EmptyString
  | String c r => if Char.isLower c then String (Char.toUpper c) r else str
  end.

(** [str.replace(/_([a-z])/g, (match, letter) => letter.toUpperCase())]:
    an underscore followed by a lower-case letter is replaced, with the
    letter, by the upper-case letter; the scan resumes after the letter. *)
Fixpoint underscoresToUpper (str : string) : string :=
  match str with
  | EmptyString => EmptyString
  | String c r =>
      match r with
      | String d r' =>
          if Ascii.eqb c "_" && Char.isLower d
          then String (Char.toUpper d) (underscoresToUpper r')
          else String c (underscoresToUpper r)
      | EmptyString => String c EmptyString
      end
  end.

Definition convertParamToPascalCase (param : string) : string :=
  capitalizeFirst (underscoresToUpper param).

Definition convertToPascalCase (str : string) : string :=
  capitalizeFirst (underscoresToUpper str).

(** [url.replace(/^\//, '')] *)
Definition stripLeadingSlash (url : string) : string :=
  match url with
  | String c r => if Ascii.eqb c "/" then r else url
  | EmptyString => url
  end.

Definition extractPathParts (url : string) : list string :=
  filter (λ part, nonEmpty part = true) (splitSlash (stripLeadingSlash url)).

Definition processPathParts (pathParts : list string) : list string :=
  map (λ part,
         if startsWith part ":"
         then convertParamToPascalCase (substring1 part)
         else convertToPascalCase part)
      pathParts.

Definition generatePathId (url : string) : string :=
  join (processPathParts (extractPathParts url)).

Definition genericNames : list string :=
  [ "Details"; "List"; "Create"; "Update"; "Delete"; "Get"; "Post"; "Put"; "Patch";
    "Restart"; "Stop"; "Start"; "Info"; "Status"; "Check"; "Add"; "Remove"; "Set";
    "Generate"; "Enable"; "Disable"; "Send"; "Receive"; "Upload"; "Download" ].

Definition isGenericOperationName (name : string) : bool :=
  existsb (λ generic, includes (toLowerCase name) (toLowerCase generic)) genericNames
  || (String.length name <? 4)%nat.

(** [l.slice(-n)] for [n > 0]: the last [n] elements of [l], all of [l]
    when it has fewer. *)
Definition sliceLast (n : nat) (l : list string) : list string :=
  drop (length l - n) l.

Definition addPathContextIfNeeded (cleanName url : string) : string :=
  let pathParts := extractPathParts url in
  let urlDepth := length pathParts in
  if (2 <? urlDepth)%nat then
    let processedParts := processPathParts pathParts in
    let lastTwoParts := join (sliceLast 2 processedParts) in
    capitalizeFirst (lastTwoParts +:+ cleanName)
  else cleanName.

Definition generateOperationIdFromPath (method url : string) : string :=
  let pathParts := extractPathParts url in
  let processedParts := processPathParts pathParts in
  let methodCapitalized := capitalizeFirst method in
  methodCapitalized +:+ join processedParts.

(** ** Type coercion table *)

Inductive Schema : Type :=
  | StringSchema                      (* { type: 'string' } *)
  | IntegerSchema                     (* { type: 'integer' } *)
  | BooleanSchema                     (* { type: 'boolean' } *)
  | ArraySchema (items : Schema)      (* { type: 'array', items: ... } *)
  | ObjectSchema.                     (* { type: 'object' } *)

(** The entries of [typeMap], in the order of the object literal, which is
    the order [Object.keys] enumerates them in. *)
Definition typeMap : list (string * Schema) :=
  [ ("string", StringSchema);
    ("number", IntegerSchema);
    ("integer", IntegerSchema);
    ("int", IntegerSchema);
    ("boolean", BooleanSchema);
    ("bool", BooleanSchema);
    ("array", ArraySchema StringSchema);
    ("object", ObjectSchema) ].

Definition typeMapGet (key : string) : option Schema :=
  snd <$> List.find (λ entry, String.eqb (fst entry) key) typeMap.

Definition parseParameterType (type : option string) : Schema :=
  match type with
  | None => StringSchema
  | Some EmptyString => StringSchema
  | Some type =>
      let normalizedType := toLowerCase type in
      match List.find (λ key, includes normalizedType key) (map fst typeMap) with
      | Some matchingType => default StringSchema (typeMapGet matchingType)
      | None => StringSchema
      end
  end.

(** ** Identifier uniqueness ledger *)

(** The [while] loop of [ensureUniqueOperationId], started at [counter]:
    [fuel] bounds the number of candidates that are tried, and [None] means
    that the bound was reached. *)
Fixpoint probe (fuel : nat) (used : gset string) (baseId : string) (counter : nat)
  : option string :=
  match fuel with
  | O => None
  | S fuel' =>
      let uniqueId := baseId +:+ pretty counter in
      if decide (uniqueId ∈ used)
      then probe fuel' used baseId (S counter)
      else Some uniqueId
  end.

(** [ensureUniqueOperationId(baseId)] on the ledger [used]: the identifier
    it returns and the ledger it leaves.  The loop is given one more try
    than the ledger has entries; [ensureUniqueOperationId_total] shows that
    this is always enough. *)
Definition ensureUniqueOperationId (baseId : string) (used : gset string)
  : option (string * gset string) :=
  if decide (baseId ∈ used) then
    uniqueId ← probe (S (size used)) used baseId 2;
    Some (uniqueId, {[uniqueId]} ∪ used)
  else Some (baseId, {[baseId]} ∪ used).

(** ** Endpoint records *)

(** One declared field of a field group: [{ field, type, optional,
    description }]. *)
Record Field : Type := {
  f_field : option string;
  f_type : option string;
  f_optional : bool;
  f_description : option string
}.

(** [endpoint.parameter.fields], with its four group labels. *)
Record ParameterFields : Type := {
  pf_Parameter : option (list Field);
  pf_Query : option (list Field);
  pf_Body : option (list Field);
  pf_Request : option (list Field)
}.

(** [endpoint.header.fields] *)
Record HeaderFields : Type := {
  hf_Header : option (list Field)
}.

(** [endpoint.success.fields] *)
Record SuccessFields : Type := {
  sf_Success200 : option (list Field);       (* 'Success 200' *)
  sf_Success : option (list Field)
}.

(** [endpoint.error.fields] *)
Record ErrorFields : Type := {
  ef_Error4xx : option (list Field);         (* 'Error 4xx' *)
  ef_Error : option (list Field)
}.

(** [endpoint.deprecated], when it is there. *)
Record Deprecated : Type := {
  d_content : option string
}.

(** An endpoint record.  [e_parameter] is [endpoint.parameter?.fields], and
    likewise for [e_header], [e_success] and [e_error]; [e_public] is the
    truthiness of [endpoint.public]. *)
Record Endpoint : Type := {
  e_type : option string;
  e_url : option string;
  e_title : option string;
  e_name : option string;
  e_group : option string;
  e_description : option string;
  e_deprecated : option Deprecated;
  e_parameter : option ParameterFields;
  e_header : option HeaderFields;
  e_success : option SuccessFields;
  e_error : option ErrorFields;
  e_public : bool
}.

(** [a || b || []] for two optional arrays: an array is truthy even when it
    is empty. *)
Definition firstArray (a b : option (list Field)) : list Field :=
  match a, b with
  | Some l, _ => l
  | None, Some l => l
  | None, None => []
  end.

(** ** Operation identifiers from endpoint records *)

Definition getGroupPrefix (endpoint : Endpoint) : string :=
  match e_group endpoint with
  | Some group =>
      if nonEmpty group && negb (String.eqb group "Default")
      then stripNonAlphanumeric group
      else ""
  | None => ""
  end.

Definition generateContextualOperationId (endpoint : Endpoint) (cleanName url : string)
  : string :=
  let groupPrefix := getGroupPrefix endpoint in
  let pathId := generatePathId url in
  capitalizeFirst (groupPrefix +:+ pathId +:+ cleanName).

(** [endpoint.name] is known to be a string here. *)
Definition generateOperationIdFromName (endpoint : Endpoint) (name method url : string)
  : string :=
  let cleanName := stripNonAlphanumeric name in
  let isGeneric := isGenericOperationName cleanName in
  if isGeneric
  then generateContextualOperationId endpoint cleanName url
  else addPathContextIfNeeded cleanName url.

Definition generateOperationId (endpoint : Endpoint) : string :=
  let method := toLowerCase (orElse (e_type endpoint) "get") in
  let url := orElse (e_url endpoint) "" in
  match e_name endpoint with
  | Some name =>
      if nonEmpty (trim name)
      then generateOperationIdFromName endpoint name method url
      else generateOperationIdFromPath method url
  | None => generateOperationIdFromPath method url
  end.

(** ** Operations *)

Inductive Location : Type := InPath | InQuery | InHeader.

Record ParameterDescriptor : Type := {
  p_name : option string;
  p_in : Location;
  p_required : bool;
  p_schema : Schema;
  p_description : string
}.

(** A property of an object schema: the coerced schema of the declared
    type with the description added. *)
Record Property : Type := {
  prop_schema : Schema;
  prop_description : string
}.

(** The schemas of request and response bodies. *)
Inductive BodySchema : Type :=
  | OpenObject
      (* { type: 'object' } *)
  | ObjectOf (properties : gmap string Property) (required : list (option string))
      (* { type: 'object', properties, required }, [required] left out when empty *)
  | ErrorEnvelope.
      (* { type: 'object', properties: { error: { type: 'object',
           properties: { message: { type: 'string' } } } } } *)

(** A response; [r_content] is the schema under
    [content['application/json'].schema]. *)
Record Response : Type := {
  r_description : string;
  r_content : option BodySchema
}.

Record RequestBody : Type := {
  rb_required : bool;
  rb_schema : BodySchema
}.

(** An operation object.  [o_deprecated] is [true] when the property is set
    (it is only ever set to [true]); [o_security] lists the security
    requirements as pairs of scheme name and scopes. *)
Record Operation : Type := {
  o_summary : string;
  o_description : string;
  o_operationId : string;
  o_tags : list string;
  o_parameters : list ParameterDescriptor;
  o_responses : gmap string Response;
  o_deprecated : bool;
  o_requestBody : option RequestBody;
  o_security : option (list (string * list string))
}.

(** *** Parameters *)

(** [param.replace(/[{}]/g, '')] *)
Definition removeBraces (param : string) : string :=
  keepChars (λ c, negb (Ascii.eqb c "{" || Ascii.eqb c "}")) param.

Definition extractPathParameters (path : string) : list ParameterDescriptor :=
  let pathParamMatches := matchBraceTokens path in
  map (λ param,
         let paramName := removeBraces param in
         {| p_name := Some paramName;
            p_in := InPath;
            p_required := true;
            p_schema := StringSchema;
            p_description := "The " +:+ paramName +:+ " parameter" |})
      pathParamMatches.

Definition extractQueryParameters (endpoint : Endpoint) : list ParameterDescriptor :=
  match e_parameter endpoint with
  | None => []
  | Some parameterFields =>
      let queryParams := firstArray (pf_Parameter parameterFields) (pf_Query parameterFields) in
      map (λ param,
             {| p_name := f_field param;
                p_in := InQuery;
                p_required := negb (f_optional param);
                p_schema := parseParameterType (f_type param);
                p_description := orElse (f_description param) "" |})
          queryParams
  end.

Definition extractHeaderParameters (endpoint : Endpoint) : list ParameterDescriptor :=
  match e_header endpoint with
  | None => []
  | Some headerFields =>
      let headerParams := firstArray (hf_Header headerFields) None in
      map (λ param,
             {| p_name := f_field param;
                p_in := InHeader;
                p_required := negb (f_optional param);
                p_schema := StringSchema;
                p_description := orElse (f_description param) "" |})
          headerParams
  end.

(** [addParameters] pushes onto [operation.parameters], which
    [buildOperation] created empty. *)
Definition addParameters (endpoint : Endpoint) (parameters : list ParameterDescriptor) (path : string)
  : list ParameterDescriptor :=
  let pathParams := extractPathParameters path in
  let queryParams := extractQueryParameters endpoint in
  let headerParams := extractHeaderParameters endpoint in
  parameters ++ pathParams ++ queryParams ++ headerParams.

(** *** Request body and responses *)

(** The key that [properties[param.field] = ...] assigns to: an absent
    [field] becomes the key ["undefined"]. *)
Definition propertyKey (field : option string) : string :=
  default "undefined" field.

Definition extractBodyParameters (endpoint : Endpoint) : list Field :=
  match e_parameter endpoint with
  | None => []
  | Some parameterFields => firstArray (pf_Body parameterFields) (pf_Request parameterFields)
  end.

(** The [forEach] of [buildRequestBodySchema]: [properties] and [required]
    after the fields [bodyParams] have been visited. *)
Fixpoint buildRequestBodySchemaFrom (bodyParams : list Field)
    (properties : gmap string Property) (required : list (option string))
  : gmap string Property * list (option string) :=
  match bodyParams with
  | [] => (properties, required)
  | param :: rest =>
      let paramSchema := parseParameterType (f_type param) in
      let properties :=
        Obj.write (propertyKey (f_field param))
          {| prop_schema := paramSchema;
             prop_description := orElse (f_description param) "" |} properties in
      let required :=
        if negb (f_optional param) then required ++ [f_field param] else required in
      buildRequestBodySchemaFrom rest properties required
  end.

Definition buildRequestBodySchema (bodyParams : list Field)
  : gmap string Property * list (option string) :=
  buildRequestBodySchemaFrom bodyParams ∅ [].

Definition addRequestBody (endpoint : Endpoint) : option RequestBody :=
  let bodyParams := extractBodyParameters endpoint in
  match bodyParams with
  | [] => None
  | _ :: _ =>
      let '(properties, required) := buildRequestBodySchema bodyParams in
      Some {| rb_required := (0 <? length required)%nat;
              rb_schema := ObjectOf properties required |}
  end.

Definition methodsWithBody : list string := ["post"; "put"; "patch"].

Definition addRequestBodyIfNeeded (endpoint : Endpoint) (method : string)
  : option RequestBody :=
  if existsb (String.eqb method) methodsWithBody
  then addRequestBody endpoint
  else None.

Definition extractSuccessFields (endpoint : Endpoint) : list Field :=
  match e_success endpoint with
  | None => []
  | Some successFields => firstArray (sf_Success200 successFields) (sf_Success successFields)
  end.

Fixpoint buildResponsePropertiesFrom (fields : list Field)
    (properties : gmap string Property) : gmap string Property :=
  match fields with
  | [] => properties
  | field :: rest =>
      let fieldSchema := parseParameterType (f_type field) in
      buildResponsePropertiesFrom rest
        (Obj.write (propertyKey (f_field field))
           {| prop_schema := fieldSchema;
              prop_description := orElse (f_description field) "" |} properties)
  end.

Definition buildResponseProperties (fields : list Field) : gmap string Property :=
  buildResponsePropertiesFrom fields ∅.

Definition buildSuccessResponse (endpoint : Endpoint) : Response :=
  let successFields := extractSuccessFields endpoint in
  match successFields with
  | [] => {| r_description := "Successful operation"; r_content := Some OpenObject |}
  | _ :: _ =>
      let properties := buildResponseProperties successFields in
      {| r_description := "Successful operation";
         r_content := Some (ObjectOf properties []) |}
  end.

Definition buildErrorResponse (endpoint : Endpoint) : gmap string Response :=
  match e_error endpoint with
  | None => ∅
  | Some errorFields =>
      let hasErrorFields :=
        (0 <? length (firstArray (ef_Error4xx errorFields) (ef_Error errorFields)))%nat in
      if hasErrorFields
      then {[ "400" := {| r_description := "Bad Request"; r_content := Some ErrorEnvelope |} ]}
      else ∅
  end.

Definition buildStandardResponses : gmap string Response :=
  <["401" := {| r_description := "Unauthorized"; r_content := None |}]>
  (<["403" := {| r_description := "Forbidden"; r_content := None |}]>
  (<["404" := {| r_description := "Not Found"; r_content := None |}]>
  (<["500" := {| r_description := "Internal Server Error"; r_content := None |}]> ∅))).

(** [{ '200': successResponse, ...errorResponse, ...standardResponses }]:
    a later spread overwrites the keys of an earlier one. *)
Definition addResponses (endpoint : Endpoint) : gmap string Response :=
  let successResponse := buildSuccessResponse endpoint in
  let errorResponse := buildErrorResponse endpoint in
  let standardResponses := buildStandardResponses in
  standardResponses ∪ (errorResponse ∪ {[ "200" := successResponse ]}).

(** *** Deprecation and security *)

Definition newline : string := String (ascii_of_nat 10) EmptyString.

(** The values of [operation.deprecated] and [operation.description] that
    [addDeprecationInfo] leaves, from the description it finds. *)
Definition addDeprecationInfo (endpoint : Endpoint) (description : string)
  : bool * string :=
  match e_deprecated endpoint with
  | None => (false, description)
  | Some deprecated =>
      match d_content deprecated with
      | Some content =>
          if nonEmpty content
          then (true, description +:+ newline +:+ newline +:+ "**Deprecated:** " +:+ content)
          else (true, description)
      | None => (true, description)
      end
  end.

(** The value of [operation.security] that [addSecurityIfNeeded] leaves;
    [None] is the property left unset. *)
Definition addSecurityIfNeeded (endpoint : Endpoint) : option (list (string * list string)) :=
  if negb (e_public endpoint) then Some [("BearerAuth", [])] else None.

(** *** Building an operation *)

(** [buildOperation(endpoint, path, method)] with the ledger [used]: the
    operation and the ledger afterwards; [None] when the ledger's loop ran
    out of fuel. *)
Definition buildOperation (endpoint : Endpoint) (path method : string) (used : gset string)
  : option (Operation * gset string) :=
  let baseOperationId := generateOperationId endpoint in
  '(operationId, used) ← ensureUniqueOperationId baseOperationId used;
  let summary :=
    orElse (e_title endpoint)
      (orElse (e_name endpoint) (toUpperCase method +:+ " " +:+ path)) in
  let description := orElse (e_description endpoint) "" in
  let '(deprecated, description) := addDeprecationInfo endpoint description in
  let parameters := addParameters endpoint [] path in
  let requestBody := addRequestBodyIfNeeded endpoint method in
  let responses := addResponses endpoint in
  let security := addSecurityIfNeeded endpoint in
  Some ({| o_summary := summary;
           o_description := description;
           o_operationId := operationId;
           o_tags := [orElse (e_group endpoint) "Default"];
           o_parameters := parameters;
           o_responses := responses;
           o_deprecated := deprecated;
           o_requestBody := requestBody;
           o_security := security |},
        used).

(** ** Specification assembler *)

Record Config : Type := {
  apiDataUrl : string;
  outputDir : string;
  serverUrl : string;
  apiTitle : string;
  apiDescription : string;
  apiVersion : string;
  contactName : string;
  contactUrl : string;
  licenseUrl : string
}.

Record Info : Type := {
  i_title : string;
  i_description : string;
  i_version : string;
  i_contact : string * string;           (* name, url *)
  i_license : string * string            (* name, url *)
}.

Record Server : Type := {
  s_url : string;
  s_description : string
}.

Record SecurityScheme : Type := {
  ss_type : string;
  ss_scheme : string;
  ss_description : string
}.

Record Components : Type := {
  c_schemas : gmap string Schema;
  c_securitySchemes : gmap string SecurityScheme
}.

(** The output document. *)
Record OpenAPISpec : Type := {
  openapi : string;
  info : Info;
  servers : list Server;
  paths : gmap string (gmap string Operation);
  components : Components
}.

(** The loaded document, [{ api: [...] }]. *)
Record APIData : Type := {
  api : option (list Endpoint)
}.

(** The state of a converter instance. *)
Record NitradoAPIConverter : Type := {
  config : Config;
  apiData : option APIData;
  usedOperationIds : gset string
}.

(** How a call ends: it returns, it throws an [Error] with a message, it
    throws the [TypeError] of the engine (calling what is not a function),
    or the model ran out of fuel. *)
Inductive Completion (A : Type) : Type :=
  | Returns (value : A)
  | Throws (message : string)
  | TypeError
  | OutOfFuel.
Arguments Returns {A} value.
Arguments Throws {A} message.
Arguments TypeError {A}.
Arguments OutOfFuel {A}.

Definition createAPIInfo (config : Config) : Info :=
  {| i_title := apiTitle config;
     i_description := apiDescription config;
     i_version := apiVersion config;
     i_contact := (contactName config, contactUrl config);
     i_license := ("Proprietary", licenseUrl config) |}.

Definition createServers (config : Config) : list Server :=
  [ {| s_url := serverUrl config; s_description := "Nitrado API Server" |} ].

Definition createComponents : Components :=
  {| c_schemas := ∅;
     c_securitySchemes :=
       {[ "BearerAuth" := {| ss_type := "http";
                              ss_scheme := "bearer";
                              ss_description := "Bearer token authentication" |} ]} |}.

Definition createBaseOpenAPISpec (config : Config) : OpenAPISpec :=
  {| openapi := "3.1.1";
     info := createAPIInfo config;
     servers := createServers config;
     paths := ∅;
     components := createComponents |}.

Definition validateAPIData (this : NitradoAPIConverter) : Completion unit :=
  match apiData this ≫= api with
  | None => Throws "No API data available. Please fetch data first."
  | Some _ => Returns ()
  end.

(** The [reduce] of [groupEndpointsByGroup], from the accumulator
    [groups].  When [group] is no own property of [groups] and yet
    [groups[group]] is truthy, it is the value that [groups] inherits under
    this name, which has no [push]: the call of it throws. *)
Fixpoint groupEndpointsFrom (endpoints : list Endpoint) (groups : gmap string (list Endpoint))
  : Completion (gmap string (list Endpoint)) :=
  match endpoints with
  | [] => Returns groups
  | endpoint :: rest =>
      let group := orElse (e_group endpoint) "Default" in
      let groups := if Obj.truthyAt groups group then groups else <[group := []]> groups in
      match groups !! group with
      | Some members => groupEndpointsFrom rest (<[group := members ++ [endpoint]]> groups)
      | None => TypeError
      end
  end.

(** [groupEndpointsByGroup()] over the loaded endpoint records. *)
Definition groupEndpointsByGroup (endpoints : list Endpoint)
  : Completion (gmap string (list Endpoint)) :=
  groupEndpointsFrom endpoints ∅.

Definition ensurePathExists (paths : gmap string (gmap string Operation)) (path : string)
  : gmap string (gmap string Operation) :=
  if Obj.truthyAt paths path then paths else <[path := ∅]> paths.

(** [convertEndpoint(endpoint, openAPISpec)]: the [paths] of the document
    and the ledger afterwards.  The default ['get'] of the destructuring
    applies to an absent [type] only.  When [path] is no own property of
    [paths] after [ensurePathExists], [paths[path]] is the built-in object
    that [paths] inherits under this name, and the assignment lands there
    and not in the document; what the engine does with such an assignment
    is not part of the model. *)
Definition convertEndpoint (endpoint : Endpoint)
    (paths : gmap string (gmap string Operation)) (used : gset string)
  : option (gmap string (gmap string Operation) * gset string) :=
  let method := default "get" (e_type endpoint) in
  match e_url endpoint with
  | None => Some (paths, used)
  | Some url =>
      if negb (nonEmpty url) then Some (paths, used)
      else
        let path := normalizePath url in
        let normalizedMethod := toLowerCase method in
        let paths := ensurePathExists paths path in
        '(operation, used) ← buildOperation endpoint path normalizedMethod used;
        Some (match paths !! path with
              | Some item => <[path := Obj.write normalizedMethod operation item]> paths
              | None => paths
              end, used)
  end.

(** [endpoints.forEach(endpoint => this.convertEndpoint(endpoint, openAPISpec))] *)
Fixpoint forEachConvertEndpoint (endpoints : list Endpoint)
    (paths : gmap string (gmap string Operation)) (used : gset string)
  : option (gmap string (gmap string Operation) * gset string) :=
  match endpoints with
  | [] => Some (paths, used)
  | endpoint :: rest =>
      '(paths, used) ← convertEndpoint endpoint paths used;
      forEachConvertEndpoint rest paths used
  end.

Definition withUsedOperationIds (this : NitradoAPIConverter) (used : gset string)
  : NitradoAPIConverter :=
  {| config := config this; apiData := apiData this; usedOperationIds := used |}.

Definition withPaths (openAPISpec : OpenAPISpec) (paths : gmap string (gmap string Operation))
  : OpenAPISpec :=
  {| openapi := openapi openAPISpec;
     info := info openAPISpec;
     servers := servers openAPISpec;
     paths := paths;
     components := components openAPISpec |}.

(** [convertToOpenAPI()]: how the call ends, and the instance afterwards.
    The grouping by tag is only logged when it returns. *)
Definition convertToOpenAPI (this : NitradoAPIConverter)
  : Completion OpenAPISpec * NitradoAPIConverter :=
  match validateAPIData this with
  | Throws message => (Throws message, this)
  | TypeError => (TypeError, this)
  | OutOfFuel => (OutOfFuel, this)
  | Returns _ =>
      let this := withUsedOperationIds this ∅ in
      let openAPISpec := createBaseOpenAPISpec (config this) in
      let endpoints := default [] (apiData this ≫= api) in
      match groupEndpointsByGroup endpoints with
      | Throws message => (Throws message, this)
      | TypeError => (TypeError, this)
      | OutOfFuel => (OutOfFuel, this)
      | Returns endpointsByGroup =>
          match forEachConvertEndpoint endpoints (paths openAPISpec) (usedOperationIds this) with
          | Some (paths, used) =>
              (Returns (withPaths openAPISpec paths), withUsedOperationIds this used)
          | None => (OutOfFuel, this)
          end
      end
  end.

(** ** Loading *)

(** [p] removed from the start of [s], when [s] starts with [p]. *)
Fixpoint stripPrefix (p s : string) {struct p} : option string :=
  match p, s with
  | EmptyString, _ => Some s
  | String _ _, EmptyString => None
  | String a p', String b s' => if Ascii.eqb a b then stripPrefix p' s' else None
  end.

(** [\s*$]: nothing but white space up to the end. *)
Fixpoint onlyWhiteSpace (s : string) : bool :=
  match s with
  | EmptyString => true
  | String c r => Char.isWhiteSpace c && onlyWhiteSpace r
  end.

(** [;?\s*$]: what may follow the closing parenthesis of the wrapper. *)
Definition closesWrapper (rest : string) : bool :=
  onlyWhiteSpace rest
  || match rest with
     | String ";" rest' => onlyWhiteSpace rest'
     | _ => false
     end.

(** [s.replace(/\);?\s*$/, '')]: the first closing parenthesis that is
    followed by an optional semicolon and white space only is removed with
    all that follows it. *)
Fixpoint stripWrapperEnd (s : string) : string :=
  match s with
  | EmptyString => EmptyString
  | String c r =>
      if Ascii.eqb c ")" && closesWrapper r then EmptyString
      else String c (stripWrapperEnd r)
  end.

(** [processResponseData(data)] for a response body that is a string. *)
Definition processResponseData (data : string) : string :=
  let stripped := stripWrapperEnd (default data (stripPrefix "define(" data)) in
  stripped.

(** * Notions used in the statements *)

Implicit Types (paths : gmap string (gmap string Operation)) (used : gset string).
Implicit Types (path method baseId : string) (operation : Operation).
Implicit Types (endpoints : list Endpoint).

(** ** The ledger and the document *)

(** The candidate that the loop tries at [counter]. *)
Definition candidate baseId (counter : nat) : string := baseId +:+ pretty counter.

(** [paths[path][method]], when both keys are there. *)
Definition operationAt paths path method : option Operation :=
  paths !! path ≫= λ item, item !! method.

(** No two places of the document hold the same operation identifier. *)
Definition uniqueOperationIds paths : Prop :=
  ∀ path1 method1 operation1 path2 method2 operation2,
    operationAt paths path1 method1 = Some operation1 →
    operationAt paths path2 method2 = Some operation2 →
    o_operationId operation1 = o_operationId operation2 →
    path1 = path2 ∧ method1 = method2.

(** Every identifier of the document is in the ledger. *)
Definition registered paths used : Prop :=
  ∀ path method operation,
    operationAt paths path method = Some operation → o_operationId operation ∈ used.

(** The assignment [paths[path][method] = operation] after
    [ensurePathExists(paths, path)]: the document afterwards. *)
Definition assign paths path method operation : gmap string (gmap string Operation) :=
  let paths := ensurePathExists paths path in
  match paths !! path with
  | Some item => <[path := Obj.write method operation item]> paths
  | None => paths
  end.

(** That assignment creates or overwrites an entry of the document: the
    path is a key of the document or can become one, and the method is not
    the accessor name. *)
Definition storedAt paths path method : bool :=
  (bool_decide (is_Some (paths !! path)) || negb (Obj.inherited path))
  && negb (String.eqb method "__proto__").

(** An endpoint is converted when its [url] is a non-empty string. *)
Definition convertible (endpoint : Endpoint) : bool := truthy (e_url endpoint).

(** The path and method keys under which an endpoint is stored. *)
Definition pathOf (endpoint : Endpoint) : string :=
  normalizePath (orElse (e_url endpoint) "").
Definition methodOf (endpoint : Endpoint) : string :=
  toLowerCase (default "get" (e_type endpoint)).

(** [operation] is what [buildOperation] made of one of [endpoints], and
    [path] and [method] are the keys of that endpoint. *)
Definition builtFrom endpoints (path method : string) operation : Prop :=
  ∃ endpoint used used',
    endpoint ∈ endpoints
    ∧ convertible endpoint = true
    ∧ pathOf endpoint = path
    ∧ methodOf endpoint = method
    ∧ buildOperation endpoint path method used = Some (operation, used').

(** The group an endpoint is filed under, which is also the tag of its
    operation. *)
Definition tagOf (endpoint : Endpoint) : string :=
  orElse (e_group endpoint) "Default".

(** No record is filed under a name that every object inherits: the
    grouping then calls no inherited value. *)
Definition plainGroups endpoints : bool :=
  forallb (λ endpoint, negb (Obj.inherited (tagOf endpoint))) endpoints.

(** No record with a URL has such a name as its path: the run then assigns
    to no built-in object.  (The path of a URL that starts with a slash
    never is such a name.) *)
Definition plainPaths endpoints : bool :=
  forallb (λ endpoint, negb (convertible endpoint && Obj.inherited (pathOf endpoint)))
          endpoints.

(** The keys of a run are plain when both hold. *)
Definition plainKeys endpoints : bool := plainGroups endpoints && plainPaths endpoints.


(** The members of [group] after [endpoints] have been filed, when
    [members] were there before. *)
Definition membersAfter (members : option (list Endpoint)) endpoints (group : string)
  : option (list Endpoint) :=
  match members with
  | Some members => Some (members ++ filter (λ e, tagOf e = group) endpoints)
  | None =>
      match filter (λ e, tagOf e = group) endpoints with
      | [] => None
      | members => Some members
      end
  end.


(** The operation identifier that the record at position [i] of
    [endpoints] receives when [convertToOpenAPI] runs over [endpoints]:
    the ledger is the one left by the records before it.  [None] for a
    position outside the list and for a record that is skipped. *)
Definition operationIdIssued (endpoints : list Endpoint) (i : nat) : option string :=
  endpoint ← endpoints !! i;
  '(_, used) ← forEachConvertEndpoint (take i endpoints) ∅ ∅;
  if convertible endpoint
  then '(operation, _) ← buildOperation endpoint (pathOf endpoint) (methodOf endpoint) used;
       Some (o_operationId operation)
  else None.

(** Nothing, or a decimal number from 2 on: what the ledger appends. *)
Definition ledgerSuffix (suffix : string) : Prop :=
  suffix = "" ∨ ∃ n, 2 ≤ n ∧ suffix = pretty n.



(** ** URLs written as their parts *)

(** [test] holds of every character of [s]. *)
Fixpoint allChars (test : ascii → bool) (s : string) : bool :=
  match s with
  | EmptyString => true
  | String c r => test c && allChars test r
  end.

(** A URL written as its parts: the text before the first path parameter,
    and then each path parameter with the text that follows it. *)
Definition colonForm (head : string) (tokens : list (string * string)) : string :=
  head +:+ join (map (λ token, ":" +:+ token.1 +:+ token.2) tokens).

(** The same parts with each parameter name in braces. *)
Definition braceForm (head : string) (tokens : list (string * string)) : string :=
  head +:+ join (map (λ token, "{" +:+ token.1 +:+ "}" +:+ token.2) tokens).

(** Text without colon and without opening brace. *)
Definition plainText (text : string) : bool :=
  allChars (λ c, negb (Ascii.eqb c ":" || Ascii.eqb c "{")) text.

(** A parameter name: word characters, at least one. *)
Definition tokenName (name : string) : bool :=
  nonEmpty name && allChars Char.isWord name.

(** The parts are the ones the scan finds: the names are parameter names,
    the texts are plain, and no text continues the name before it with a
    word character. *)
Definition tokensOk (tokens : list (string * string)) : bool :=
  forallb (λ token,
             tokenName token.1 && plainText token.2 && negb (nonEmpty (takeWord token.2)))
          tokens.

(** The descriptor of the path parameter [name]. *)
Definition pathParameter (name : string) : ParameterDescriptor :=
  {| p_name := Some name;
     p_in := InPath;
     p_required := true;
     p_schema := StringSchema;
     p_description := "The " +:+ name +:+ " parameter" |}.

(** ** Identifier synthesis, in the words of the specification

    The notions of this part are written from the wording of the
    specification and use none of the functions of the embedding; the
    properties below relate the two. *)

(** The text in lower case. *)
Definition lowerCaseOf (text : string) : string :=
  String.string_of_list_ascii (List.map Char.toLower (String.list_ascii_of_string text)).

























(** ** Type coercion, in the words of the specification *)

(** The coercion table read from top to bottom. *)
Definition coercionOf (token : option string) : Schema :=
  match token with
  | None => StringSchema
  | Some token =>
      let lower := toLowerCase token in
      if includes lower "string" then StringSchema
      else if includes lower "number" then IntegerSchema
      else if includes lower "integer" then IntegerSchema
      else if includes lower "int" then IntegerSchema
      else if includes lower "boolean" then BooleanSchema
      else if includes lower "bool" then BooleanSchema
      else if includes lower "array" then ArraySchema StringSchema
      else if includes lower "object" then ObjectSchema
      else StringSchema
  end.

(** ** Sample data *)

(** The [defaultConfig] of the constructor. *)
Definition defaultConfig : Config :=
  {| apiDataUrl := "https://doc.nitrado.net/api_data.js?v=1752345280167";
     outputDir := "./output";
     serverUrl := "https://api.nitrado.net";
     apiTitle := "Nitrado API";
     apiDescription :=
       "Official Nitrado API for managing game servers, domains, and other services";
     apiVersion := "1.0.0";
     contactName := "Nitrado Support";
     contactUrl := "https://nitrado.net/support";
     licenseUrl := "https://nitrado.net/terms" |}.

(** An endpoint record with the four properties given and nothing else. *)
Definition endpointOf (type url name group : option string) : Endpoint :=
  {| e_type := type; e_url := url; e_title := None; e_name := name; e_group := group;
     e_description := None; e_deprecated := None; e_parameter := None; e_header := None;
     e_success := None; e_error := None; e_public := false |}.

(** A converter as the constructor leaves it, then loaded with [data]. *)
Definition converterWith (data : option APIData) : NitradoAPIConverter :=
  {| config := defaultConfig; apiData := data; usedOperationIds := ∅ |}.

(** Two endpoints named [Details] of one group whose paths differ and yet
    give the same contextual identifier. *)
Definition detailsSnake : Endpoint :=
  endpointOf (Some "get") (Some "/a_b/c/d") (Some "Details") (Some "Server").
Definition detailsCamel : Endpoint :=
  endpointOf (Some "get") (Some "/aB/c/d") (Some "Details") (Some "Server").

Definition collidingConverter : NitradoAPIConverter :=
  converterWith (Some {| api := Some [detailsSnake; detailsCamel] |}).

(** An endpoint marked public, and one without a [type]. *)
Definition publicEndpoint : Endpoint :=
  {| e_type := Some "GET"; e_url := Some "/ping"; e_title := None; e_name := Some "Ping";
     e_group := None; e_description := None; e_deprecated := None; e_parameter := None;
     e_header := None; e_success := None; e_error := None; e_public := true |}.

Definition untypedEndpoint : Endpoint :=
  endpointOf None (Some "/company/:id/stats") None (Some "Company").

(** An endpoint whose URL is the name of a method that every object
    inherits. *)
Definition inheritedPath : Endpoint :=
  endpointOf None (Some "toString") None None.

(** An endpoint with two path parameters, a query parameter and a header
    parameter. *)
Definition mixedEndpoint : Endpoint :=
  {| e_type := Some "post";
     e_url := Some "/services/:service_id/users/:user_id";
     e_title := None; e_name := Some "TestMixedParams"; e_group := None;
     e_description := None; e_deprecated := None;
     e_parameter :=
       Some {| pf_Parameter :=
                 Some [ {| f_field := Some "query_param"; f_type := Some "String";
                           f_optional := false; f_description := None |} ];
               pf_Query := None; pf_Body := None; pf_Request := None |};
     e_header :=
       Some {| hf_Header :=
                 Some [ {| f_field := Some "X-Custom-Header"; f_type := Some "String";
                           f_optional := true; f_description := None |} ] |};
     e_success := None; e_error := None; e_public := false |}.

(** Endpoints for the examples below. *)
Definition companyStats : Endpoint :=
  endpointOf (Some "get") (Some "/company/stats") None None.
Definition minecraftDetails : Endpoint :=
  endpointOf (Some "get") (Some "/services/:id/gameservers/games/minecraft")
    (Some "Details") (Some "Game_Minecraft").

(** ** Notions for the further properties *)

(** The converter [this] with the document [{ api: endpoints }] loaded. *)
Definition withEndpoints (this : NitradoAPIConverter) endpoints : NitradoAPIConverter :=
  {| config := config this;
     apiData := Some {| api := Some endpoints |};
     usedOperationIds := usedOperationIds this |}.

(** [convertToOpenAPI] returns a document, and every operation of it was
    built from one of [endpoints], under the keys of that endpoint, and is
    related to it by [P]. *)
Definition operationsSatisfy (this : NitradoAPIConverter) endpoints
    (P : Endpoint → Operation → Prop) : Prop :=
  ∃ openAPISpec this',
    convertToOpenAPI this = (Returns openAPISpec, this')
    ∧ ∀ path method operation,
        operationAt (paths openAPISpec) path method = Some operation →
        ∃ endpoint,
          endpoint ∈ endpoints
          ∧ convertible endpoint = true
          ∧ pathOf endpoint = path
          ∧ methodOf endpoint = method
          ∧ P endpoint operation.

(** [endpoint'] is converted and stored at the place of [endpoint]. *)
Definition sameSlot (endpoint endpoint' : Endpoint) : bool :=
  convertible endpoint'
  && String.eqb (pathOf endpoint') (pathOf endpoint)
  && String.eqb (methodOf endpoint') (methodOf endpoint).

(** [n] calls of [ensureUniqueOperationId(baseId)] in a row: the
    identifiers they return, in order, and the ledger they leave. *)
Fixpoint reserveTimes (n : nat) baseId used : option (list string * gset string) :=
  match n with
  | O => Some ([], used)
  | S n' =>
      '(operationId, used) ← ensureUniqueOperationId baseId used;
      '(operationIds, used) ← reserveTimes n' baseId used;
      Some (operationId :: operationIds, used)
  end.

(** Two records stored at the same place, and a third one without URL. *)
Definition firstVersion : Endpoint :=
  endpointOf (Some "GET") (Some "/servers/:id") (Some "ServerOverview") (Some "Server").
Definition secondVersion : Endpoint :=
  endpointOf (Some "get") (Some "/servers/:id") (Some "ServerSummary") (Some "Server").
Definition withoutUrl : Endpoint :=
  endpointOf (Some "get") None (Some "Orphan") None.

(** The declared error fields of an endpoint, under the first label that
    is there. *)
Definition errorFieldsOf (endpoint : Endpoint) : list Field :=
  match e_error endpoint with
  | None => []
  | Some errorFields => firstArray (ef_Error4xx errorFields) (ef_Error errorFields)
  end.

(** The schema property that a declared field gives. *)
Definition propertyOf (field : Field) : Property :=
  {| prop_schema := parseParameterType (f_type field);
     prop_description := orElse (f_description field) "" |}.

(** An endpoint with deprecation note, body fields, success fields and
    error fields. *)
Definition richEndpoint : Endpoint :=
  {| e_type := Some "POST";
     e_url := Some "/domain/:domain/service";
     e_title := Some "Create service"; e_name := Some "CreateService";
     e_group := Some "Domain"; e_description := Some "Creates a service.";
     e_deprecated := Some {| d_content := Some "Use the order API." |};
     e_parameter :=
       Some {| pf_Parameter := None; pf_Query := None;
               pf_Body :=
                 Some [ {| f_field := Some "service_id"; f_type := Some "Integer";
                           f_optional := false; f_description := Some "The service" |};
                        {| f_field := Some "comment"; f_type := Some "String";
                           f_optional := true; f_description := None |};
                        {| f_field := Some "service_id"; f_type := Some "String";
                           f_optional := true; f_description := None |} ];
               pf_Request := None |};
     e_header := None;
     e_success :=
       Some {| sf_Success200 := None;
               sf_Success :=
                 Some [ {| f_field := Some "status"; f_type := Some "String";
                           f_optional := false; f_description := None |} ] |};
     e_error :=
       Some {| ef_Error4xx :=
                 Some [ {| f_field := Some "message"; f_type := Some "String";
                           f_optional := false; f_description := None |} ];
               ef_Error := None |};
     e_public := false |}.

(** The capitals of all letters of the text are in the range of the
    model. *)
Definition capitalsInRange (text : string) : bool :=
  allChars (λ c, negb (nat_of_ascii c =? 181)%nat && negb (nat_of_ascii c =? 255)%nat) text.

(** The note that a deprecated endpoint adds to the description of its
    operation. *)
Definition deprecationNote (endpoint : Endpoint) : string :=
  match e_deprecated endpoint ≫= d_content with
  | Some content =>
      if nonEmpty content
      then newline +:+ newline +:+ "**Deprecated:** " +:+ content
      else ""
  | None => ""
  end.

(** * Properties *)

Implicit Types (s t u text rest name head url cleanName : string) (c : ascii).
Implicit Types (tokens : list (string * string)) (endpoint : Endpoint).

(** ** Strings *)

Section Strings.

Lemma append_nil_l s : "" +:+ s = s.
Proof. reflexivity. Qed.

Lemma append_cons c s t : String c s +:+ t = String c (s +:+ t).
Proof. reflexivity. Qed.

Lemma append_nil_r s : s +:+ "" = s.
Proof. induction s as [|c s IH]; [done|]. by rewrite append_cons, IH. Qed.

Lemma append_assoc s t u : (s +:+ t) +:+ u = s +:+ t +:+ u.
Proof. induction s as [|c s IH]; [done|]. by rewrite !append_cons, IH. Qed.

Lemma join_cons s (parts : list string) : join (s :: parts) = s +:+ join parts.
Proof. reflexivity. Qed.

End Strings.

(** ** The ledger *)

Section Ledger.

Local Instance candidate_inj baseId : Inj (=) (=) (candidate baseId).
Proof.
  intros m n Heq. unfold candidate in Heq.
  apply (inj (String.app baseId)) in Heq. by apply (inj pretty) in Heq.
Qed.

(** A successful probe stops at the first free candidate. *)
Lemma probe_Some fuel used baseId counter uniqueId :
  probe fuel used baseId counter = Some uniqueId →
  ∃ n, counter ≤ n < counter + fuel
       ∧ uniqueId = candidate baseId n
       ∧ (candidate baseId n ∉ used)
       ∧ ∀ m, counter ≤ m < n → candidate baseId m ∈ used.
Proof.
  revert counter. induction fuel as [|fuel IH]; intros counter; simpl; [done|].
  fold (candidate baseId counter). case_decide as Hin.
  - intros Hprobe. destruct (IH _ Hprobe) as (n & Hn & -> & Hfree & Hbelow).
    exists n. repeat split; [lia | lia | done |].
    intros m Hm. destruct (decide (m = counter)) as [->|]; [done|]. apply Hbelow. lia.
  - intros [= <-]. exists counter. repeat split; [lia | lia | done |]. intros m Hm. lia.
Qed.

(** A probe that runs out of fuel has found every candidate taken. *)
Lemma probe_None fuel used baseId counter :
  probe fuel used baseId counter = None →
  ∀ m, counter ≤ m < counter + fuel → candidate baseId m ∈ used.
Proof.
  revert counter. induction fuel as [|fuel IH]; intros counter; simpl; [lia|].
  fold (candidate baseId counter). case_decide as Hin; [|done].
  intros Hprobe m Hm. destruct (decide (m = counter)) as [->|]; [done|].
  apply (IH _ Hprobe). lia.
Qed.

(** With one more try than the ledger has entries the probe succeeds:
    the candidates are pairwise different, so they cannot all be in the
    ledger. *)
Lemma probe_total used baseId counter :
  is_Some (probe (S (size used)) used baseId counter).
Proof.
  destruct (probe _ _ _ _) as [uniqueId|] eqn:Hprobe; [by eexists|].
  exfalso.
  pose proof (probe_None _ _ _ _ Hprobe) as Hall.
  set (tried := candidate baseId <$> seq counter (S (size used))).
  assert (NoDup tried) as Hnodup.
  { apply (NoDup_fmap_2 _). apply NoDup_seq. }
  assert (list_to_set tried ⊆ used) as Hsub.
  { intros x Hx. apply elem_of_list_to_set in Hx.
    apply list_elem_of_fmap in Hx as (m & -> & Hm).
    apply elem_of_seq in Hm. apply Hall. lia. }
  apply subseteq_size in Hsub.
  rewrite size_list_to_set in Hsub by done.
  unfold tried in Hsub. rewrite length_fmap, length_seq in Hsub. lia.
Qed.

Lemma ensureUniqueOperationId_total baseId used :
  is_Some (ensureUniqueOperationId baseId used).
Proof.
  unfold ensureUniqueOperationId. case_decide; [|by eexists].
  destruct (probe_total used baseId 2) as [uniqueId ->]. by eexists.
Qed.

Lemma ensureUniqueOperationId_fresh baseId used :
  baseId ∉ used →
  ensureUniqueOperationId baseId used = Some (baseId, {[baseId]} ∪ used).
Proof. intros Hfresh. unfold ensureUniqueOperationId. by rewrite decide_False. Qed.

Lemma ensureUniqueOperationId_taken baseId used :
  baseId ∈ used →
  ∃ n, 2 ≤ n
       ∧ (candidate baseId n ∉ used)
       ∧ (∀ m, 2 ≤ m < n → candidate baseId m ∈ used)
       ∧ ensureUniqueOperationId baseId used
         = Some (candidate baseId n, {[candidate baseId n]} ∪ used).
Proof.
  intros Htaken. unfold ensureUniqueOperationId. rewrite decide_True by done.
  destruct (probe_total used baseId 2) as [uniqueId Hprobe]. rewrite Hprobe. simpl.
  apply probe_Some in Hprobe as (n & Hn & -> & Hfree & Hbelow).
  exists n. repeat split; [lia | done | done].
Qed.

(** What every caller can rely on: the identifier is new to the ledger,
    it is the only addition, and it is the base identifier followed by
    nothing or by a decimal number from 2 on. *)
Lemma ensureUniqueOperationId_Some baseId used operationId used' :
  ensureUniqueOperationId baseId used = Some (operationId, used') →
  (operationId ∉ used)
  ∧ used' = {[operationId]} ∪ used
  ∧ (operationId = baseId ∨ ∃ n, 2 ≤ n ∧ operationId = candidate baseId n).
Proof.
  destruct (decide (baseId ∈ used)) as [Htaken|Hfresh].
  - destruct (ensureUniqueOperationId_taken _ _ Htaken) as (n & Hn & Hfree & _ & ->).
    intros [= <- <-]. repeat split; [done|]. right. by exists n.
  - rewrite ensureUniqueOperationId_fresh by done.
    intros [= <- <-]. repeat split; [done|]. by left.
Qed.

End Ledger.

(** ** The document under construction *)

Section Assembler.

Lemma lookup_write {A : Type} key (value : A) (obj : gmap string A) key' :
  Obj.write key value obj !! key'
  = if decide (key' = key ∧ key ≠ "__proto__") then Some value else obj !! key'.
Proof.
  unfold Obj.write. destruct (String.eqb_spec key "__proto__") as [->|Hkey].
  - by rewrite decide_False by (by intros [_ ?]).
  - destruct (decide (key' = key)) as [->|Hne].
    + rewrite decide_True by done. apply lookup_insert_eq.
    + rewrite decide_False by (by intros [? _]). by apply lookup_insert_ne.
Qed.

Lemma storedAt_true paths path method :
  storedAt paths path method = true
  ↔ (is_Some (paths !! path) ∨ Obj.inherited path = false) ∧ method ≠ "__proto__".
Proof.
  unfold storedAt.
  rewrite andb_true_iff, orb_true_iff, bool_decide_eq_true, !negb_true_iff.
  by rewrite String.eqb_neq.
Qed.

Lemma operationAt_assign paths path method operation path' method' :
  operationAt (assign paths path method operation) path' method'
  = if decide (path' = path ∧ method' = method ∧ storedAt paths path method = true)
    then Some operation
    else operationAt paths path' method'.
Proof.
  unfold operationAt, assign, ensurePathExists, Obj.truthyAt.
  destruct (paths !! path) as [item|] eqn:Hitem.
  - rewrite bool_decide_eq_true_2 by by eexists. simpl. rewrite Hitem.
    destruct (decide (path' = path)) as [->|Hpath].
    + rewrite lookup_insert_eq, Hitem. simpl. rewrite lookup_write.
      repeat case_decide; try done; exfalso;
        rewrite storedAt_true in *; naive_solver.
    + rewrite lookup_insert_ne by done. by rewrite decide_False by (by intros [? _]).
  - rewrite bool_decide_eq_false_2 by (by intros [? [=]]). simpl.
    destruct (Obj.inherited path) eqn:Hinherited.
    + rewrite Hitem. rewrite decide_False; [done|].
      rewrite storedAt_true, Hitem, Hinherited. intros (_ & _ & [[? [=]]|[=]] & _).
    + rewrite lookup_insert_eq.
      destruct (decide (path' = path)) as [->|Hpath].
      * rewrite lookup_insert_eq, Hitem. simpl.
        rewrite lookup_write, lookup_empty.
        repeat case_decide; try done; exfalso;
          rewrite storedAt_true in *; naive_solver.
      * rewrite !lookup_insert_ne by done.
        by rewrite decide_False by (by intros [? _]).
Qed.

Lemma buildOperation_Some endpoint path method used operation used' :
  buildOperation endpoint path method used = Some (operation, used') →
  ensureUniqueOperationId (generateOperationId endpoint) used
  = Some (o_operationId operation, used').
Proof.
  unfold buildOperation.
  destruct (ensureUniqueOperationId _ _) as [[operationId used1]|]; [|done]. simpl.
  destruct (addDeprecationInfo _ _). by intros [= <- <-].
Qed.

Lemma buildOperation_total endpoint path method used :
  is_Some (buildOperation endpoint path method used).
Proof.
  unfold buildOperation.
  destruct (ensureUniqueOperationId_total (generateOperationId endpoint) used)
    as [[operationId used1] ->]. simpl.
  destruct (addDeprecationInfo _ _). by eexists.
Qed.

Lemma convertEndpoint_skip endpoint paths used :
  convertible endpoint = false → convertEndpoint endpoint paths used = Some (paths, used).
Proof.
  unfold convertible, convertEndpoint, truthy.
  destruct (e_url endpoint) as [url|]; [|done]. by intros ->.
Qed.

Lemma convertEndpoint_convert endpoint paths used :
  convertible endpoint = true →
  convertEndpoint endpoint paths used
  = '(operation, used) ← buildOperation endpoint (pathOf endpoint) (methodOf endpoint) used;
    Some (assign paths (pathOf endpoint) (methodOf endpoint) operation, used).
Proof.
  unfold convertible, convertEndpoint, truthy, pathOf, methodOf, orElse.
  destruct (e_url endpoint) as [url|]; [|done]. by intros ->.
Qed.

Lemma convertEndpoint_total endpoint paths used :
  is_Some (convertEndpoint endpoint paths used).
Proof.
  destruct (convertible endpoint) eqn:Hurl.
  - rewrite convertEndpoint_convert by done.
    destruct (buildOperation_total endpoint (pathOf endpoint) (methodOf endpoint) used)
      as [[operation used1] ->]. by eexists.
  - rewrite convertEndpoint_skip by done. by eexists.
Qed.

Lemma forEachConvertEndpoint_total endpoints paths used :
  is_Some (forEachConvertEndpoint endpoints paths used).
Proof.
  revert paths used. induction endpoints as [|endpoint rest IH]; intros paths used; simpl.
  - by eexists.
  - destruct (convertEndpoint_total endpoint paths used) as [[paths1 used1] ->]. apply IH.
Qed.

Lemma forEachConvertEndpoint_app endpoints1 endpoints2 paths used :
  forEachConvertEndpoint (endpoints1 ++ endpoints2) paths used
  = '(paths, used) ← forEachConvertEndpoint endpoints1 paths used;
    forEachConvertEndpoint endpoints2 paths used.
Proof.
  revert paths used. induction endpoints1 as [|endpoint rest IH]; intros paths used; simpl.
  - done.
  - destruct (convertEndpoint endpoint paths used) as [[paths1 used1]|]; [|done]. apply IH.
Qed.

(** One step keeps the document's identifiers distinct and registered,
    and only adds to the ledger. *)
Lemma convertEndpoint_invariant endpoint paths used paths' used' :
  convertEndpoint endpoint paths used = Some (paths', used') →
  uniqueOperationIds paths → registered paths used →
  uniqueOperationIds paths' ∧ registered paths' used' ∧ used ⊆ used'.
Proof.
  intros Hstep Hunique Hreg.
  destruct (convertible endpoint) eqn:Hurl.
  2:{ rewrite convertEndpoint_skip in Hstep by done. by injection Hstep as <- <-. }
  rewrite convertEndpoint_convert in Hstep by done.
  destruct (buildOperation _ _ _ _) as [[operation used1]|] eqn:Hbuild; [|done].
  injection Hstep as <- <-.
  apply buildOperation_Some, ensureUniqueOperationId_Some in Hbuild
    as (Hfresh & -> & _).
  split; [|split].
  - intros path1 method1 operation1 path2 method2 operation2.
    rewrite !operationAt_assign.
    destruct (decide (path1 = _ ∧ method1 = _ ∧ _)) as [(-> & -> & _)|_],
             (decide (path2 = _ ∧ method2 = _ ∧ _)) as [(-> & -> & _)|_];
      intros Hat1 Hat2 Heq.
    + done.
    + injection Hat1 as <-. apply Hreg in Hat2. by rewrite <- Heq in Hat2.
    + injection Hat2 as <-. apply Hreg in Hat1. by rewrite Heq in Hat1.
    + by eapply Hunique.
  - intros path' method' operation'. rewrite operationAt_assign.
    destruct (decide (path' = _ ∧ method' = _ ∧ _)) as [_|_]; intros Hat.
    + injection Hat as <-. set_solver.
    + apply Hreg in Hat. set_solver.
  - set_solver.
Qed.

Lemma forEachConvertEndpoint_invariant endpoints paths used paths' used' :
  forEachConvertEndpoint endpoints paths used = Some (paths', used') →
  uniqueOperationIds paths → registered paths used →
  uniqueOperationIds paths' ∧ registered paths' used' ∧ used ⊆ used'.
Proof.
  revert paths used.
  induction endpoints as [|endpoint rest IH]; intros paths used; simpl.
  - by intros [= <- <-].
  - destruct (convertEndpoint endpoint paths used) as [[paths1 used1]|] eqn:Hstep; [|done].
    simpl. intros Hrest Hunique Hreg.
    destruct (convertEndpoint_invariant _ _ _ _ _ Hstep Hunique Hreg)
      as (Hunique1 & Hreg1 & Hsub1).
    destruct (IH _ _ Hrest Hunique1 Hreg1) as (Hunique' & Hreg' & Hsub').
    split; [done|]. split; [done|]. by etrans.
Qed.

Lemma uniqueOperationIds_empty : uniqueOperationIds ∅.
Proof. intros path1 method1 operation1 ???. unfold operationAt. by rewrite lookup_empty. Qed.

Lemma registered_empty used : registered ∅ used.
Proof. intros path method operation. unfold operationAt. by rewrite lookup_empty. Qed.

End Assembler.

(** ** The grouping by tag *)

Section Grouping.

Implicit Types (groups : gmap string (list Endpoint)) (group : string).

Lemma plainGroups_cons endpoint endpoints :
  plainGroups (endpoint :: endpoints)
  = negb (Obj.inherited (tagOf endpoint)) && plainGroups endpoints.
Proof. reflexivity. Qed.

Lemma plainKeys_groups endpoints : plainKeys endpoints = true → plainGroups endpoints = true.
Proof. unfold plainKeys. by intros [? _]%andb_true_iff. Qed.

Lemma plainKeys_paths endpoints : plainKeys endpoints = true → plainPaths endpoints = true.
Proof. unfold plainKeys. by intros [_ ?]%andb_true_iff. Qed.

(** One record is filed under its tag when the tag is a group already or
    is not an inherited name. *)
Lemma groupEndpointsFrom_cons endpoint endpoints groups :
  is_Some (groups !! tagOf endpoint) ∨ Obj.inherited (tagOf endpoint) = false →
  groupEndpointsFrom (endpoint :: endpoints) groups
  = groupEndpointsFrom endpoints
      (<[tagOf endpoint := default [] (groups !! tagOf endpoint) ++ [endpoint]]> groups).
Proof.
  intros Hfile. simpl. fold (tagOf endpoint). unfold Obj.truthyAt.
  destruct (groups !! tagOf endpoint) as [members|] eqn:Hmembers.
  - rewrite bool_decide_eq_true_2 by by eexists. simpl. by rewrite Hmembers.
  - destruct Hfile as [[? [=]]|Hplain].
    rewrite bool_decide_eq_false_2 by (by intros [? [=]]). rewrite Hplain. simpl.
    rewrite lookup_insert_eq. by rewrite insert_insert_eq.
Qed.

(** With plain groups the grouping returns, and files every record under
    its tag, in the order of the input. *)
Lemma groupEndpointsFrom_plain endpoints groups :
  plainGroups endpoints = true →
  ∃ groups',
    groupEndpointsFrom endpoints groups = Returns groups'
    ∧ ∀ group, groups' !! group = membersAfter (groups !! group) endpoints group.
Proof.
  revert groups. induction endpoints as [|endpoint rest IH]; intros groups.
  - intros _. exists groups. split; [done|]. intros group. unfold membersAfter.
    destruct (groups !! group); [by rewrite app_nil_r | done].
  - rewrite plainGroups_cons. intros [Hplain%negb_true_iff Hrest]%andb_true_iff.
    destruct (IH (<[tagOf endpoint := default [] (groups !! tagOf endpoint) ++ [endpoint]]>
                    groups) Hrest) as (groups' & Hcall & Hgroups').
    exists groups'. split; [by rewrite groupEndpointsFrom_cons by by right|].
    intros group. rewrite Hgroups'. unfold membersAfter.
    destruct (decide (tagOf endpoint = group)) as [<-|Hgroup].
    + rewrite lookup_insert_eq, filter_cons_True by done.
      destruct (groups !! tagOf endpoint) as [members|]; simpl; [|done].
      by rewrite <- app_assoc.
    + rewrite lookup_insert_ne, filter_cons_False by done. done.
Qed.

(** A record whose tag is an inherited name makes the grouping throw. *)
Lemma groupEndpointsFrom_inherited endpoints groups :
  (∀ group, is_Some (groups !! group) → Obj.inherited group = false) →
  plainGroups endpoints = false →
  groupEndpointsFrom endpoints groups = TypeError.
Proof.
  revert groups. induction endpoints as [|endpoint rest IH]; intros groups Hown; [done|].
  rewrite plainGroups_cons.
  destruct (Obj.inherited (tagOf endpoint)) eqn:Hinherited.
  - intros _. simpl. fold (tagOf endpoint). unfold Obj.truthyAt.
    rewrite Hinherited, orb_true_r.
    destruct (groups !! tagOf endpoint) as [members|] eqn:Hmembers; [|done].
    rewrite Hown in Hinherited by by eexists. done.
  - cbn [negb andb]. intros Hrest. rewrite groupEndpointsFrom_cons by by right.
    apply IH; [|done]. intros group.
    destruct (decide (tagOf endpoint = group)) as [<-|Hgroup]; [done|].
    rewrite lookup_insert_ne by done. apply Hown.
Qed.

Lemma groupEndpointsByGroup_cases endpoints :
  if plainGroups endpoints
  then ∃ groups,
         groupEndpointsByGroup endpoints = Returns groups
         ∧ ∀ group, groups !! group = membersAfter None endpoints group
  else groupEndpointsByGroup endpoints = TypeError.
Proof.
  unfold groupEndpointsByGroup. destruct (plainGroups endpoints) eqn:Hplain.
  - destruct (groupEndpointsFrom_plain endpoints ∅ Hplain) as (groups & Hcall & Hgroups).
    exists groups. split; [done|]. intros group. by rewrite Hgroups, lookup_empty.
  - apply groupEndpointsFrom_inherited; [|done]. intros group. rewrite lookup_empty.
    by intros [? [=]].
Qed.

End Grouping.

(** ** How a conversion ends *)

Section Conversion.

(** With plain groups the call returns the document that the [forEach]
    leaves. *)
Lemma convertToOpenAPI_returns this endpoints :
  apiData this ≫= api = Some endpoints →
  plainGroups endpoints = true →
  ∃ openAPISpec this',
    convertToOpenAPI this = (Returns openAPISpec, this')
    ∧ forEachConvertEndpoint endpoints ∅ ∅
      = Some (paths openAPISpec, usedOperationIds this').
Proof.
  intros Hdata Hplain. unfold convertToOpenAPI, validateAPIData. simpl. rewrite Hdata. simpl.
  pose proof (groupEndpointsByGroup_cases endpoints) as Hgroups. rewrite Hplain in Hgroups.
  destruct Hgroups as (groups & -> & _).
  destruct (forEachConvertEndpoint_total endpoints ∅ ∅) as [[paths1 used1] Hrun].
  rewrite Hrun. by eexists _, _.
Qed.

(** A record filed under an inherited name makes the call throw before any
    record is converted; the ledger has been cleared by then. *)
Lemma convertToOpenAPI_throws this endpoints :
  apiData this ≫= api = Some endpoints →
  plainGroups endpoints = false →
  convertToOpenAPI this = (TypeError, withUsedOperationIds this ∅).
Proof.
  intros Hdata Hplain. unfold convertToOpenAPI, validateAPIData. simpl. rewrite Hdata. simpl.
  pose proof (groupEndpointsByGroup_cases endpoints) as Hgroups. rewrite Hplain in Hgroups.
  by rewrite Hgroups.
Qed.

(** What a returned document is. *)
Lemma convertToOpenAPI_Returns this openAPISpec this' :
  convertToOpenAPI this = (Returns openAPISpec, this') →
  ∃ endpoints,
    apiData this ≫= api = Some endpoints
    ∧ plainGroups endpoints = true
    ∧ forEachConvertEndpoint endpoints ∅ ∅ = Some (paths openAPISpec, usedOperationIds this')
    ∧ openAPISpec = withPaths (createBaseOpenAPISpec (config this)) (paths openAPISpec).
Proof.
  destruct (apiData this ≫= api) as [endpoints|] eqn:Hdata.
  2:{ unfold convertToOpenAPI, validateAPIData. by rewrite Hdata. }
  destruct (plainGroups endpoints) eqn:Hplain.
  2:{ by rewrite (convertToOpenAPI_throws _ _ Hdata Hplain). }
  destruct (convertToOpenAPI_returns _ _ Hdata Hplain)
    as (openAPISpec1 & this1 & Hcall & Hrun).
  rewrite Hcall. intros [= <- <-]. exists endpoints. split; [done|]. split; [done|].
  split; [done|]. revert Hcall.
  unfold convertToOpenAPI, validateAPIData. simpl. rewrite Hdata. simpl.
  destruct (groupEndpointsByGroup endpoints); try by intros [=].
  destruct (forEachConvertEndpoint endpoints ∅ ∅) as [[paths1 used1]|]; [|by intros [=]].
  by intros [= <- _].
Qed.

(** A call returns or throws: the fuel of the ledger's loop never runs
    out. *)
Lemma convertToOpenAPI_terminates this : (convertToOpenAPI this).1 ≠ OutOfFuel.
Proof.
  destruct (apiData this ≫= api) as [endpoints|] eqn:Hdata.
  2:{ unfold convertToOpenAPI, validateAPIData. by rewrite Hdata. }
  destruct (plainGroups endpoints) eqn:Hplain.
  - by destruct (convertToOpenAPI_returns _ _ Hdata Hplain) as (? & ? & -> & _).
  - by rewrite (convertToOpenAPI_throws _ _ Hdata Hplain).
Qed.





End Conversion.

(** ** Claims about the assembler and the ledger *)

Section AssemblerClaims.

(** C1.  Whenever [convertToOpenAPI] returns a document, no two operations
    of that document, at different path and method keys, have the same
    operation identifier; and it does return a document for every list of
    endpoint records whose keys are plain. *)
Theorem convertToOpenAPI_unique_operation_ids this endpoints :
  apiData this ≫= api = Some endpoints →
  (∀ openAPISpec this',
     convertToOpenAPI this = (Returns openAPISpec, this') →
     uniqueOperationIds (paths openAPISpec))
  ∧ (plainKeys endpoints = true →
     ∃ openAPISpec this',
       convertToOpenAPI this = (Returns openAPISpec, this')
       ∧ uniqueOperationIds (paths openAPISpec)).
Proof.
  intros Hdata.
  assert (∀ openAPISpec this',
            convertToOpenAPI this = (Returns openAPISpec, this') →
            uniqueOperationIds (paths openAPISpec)) as Hunique.
  { intros openAPISpec this' Hcall.
    apply convertToOpenAPI_Returns in Hcall as (endpoints' & _ & _ & Hrun & _).
    by destruct (forEachConvertEndpoint_invariant _ _ _ _ _ Hrun
                   uniqueOperationIds_empty (registered_empty ∅)) as (? & _). }
  split; [done|]. intros Hplain%plainKeys_groups.
  destruct (convertToOpenAPI_returns _ _ Hdata Hplain) as (openAPISpec & this' & Hcall & _).
  exists openAPISpec, this'. split; [done|]. by eapply Hunique.
Qed.

Lemma convertToOpenAPI_unique_operation_ids_witness :
  (∀ openAPISpec this',
     convertToOpenAPI collidingConverter = (Returns openAPISpec, this') →
     uniqueOperationIds (paths openAPISpec))
  ∧ (plainKeys [detailsSnake; detailsCamel] = true →
     ∃ openAPISpec this',
       convertToOpenAPI collidingConverter = (Returns openAPISpec, this')
       ∧ uniqueOperationIds (paths openAPISpec)).
Proof.
  apply (convertToOpenAPI_unique_operation_ids collidingConverter
           [detailsSnake; detailsCamel]).
  reflexivity.
Defined.


(** C8.  Without loaded data, or with loaded data that has no [api]
    list, [convertToOpenAPI] throws the error "No API data available"
    and so returns no document; the instance is left as it was. *)
Theorem convertToOpenAPI_no_data this :
  apiData this = None ∨ (∃ data, apiData this = Some data ∧ api data = None) →
  convertToOpenAPI this
  = (Throws "No API data available. Please fetch data first.", this).
Proof.
  intros Hdata. unfold convertToOpenAPI, validateAPIData.
  replace (apiData this ≫= api) with (@None (list Endpoint)); [done|].
  destruct Hdata as [->|(data & -> & Hapi)]; [done | by rewrite <- Hapi].
Qed.

Lemma convertToOpenAPI_no_data_witness :
  convertToOpenAPI (converterWith None)
  = (Throws "No API data available. Please fetch data first.", converterWith None)
  ∧ convertToOpenAPI (converterWith (Some {| api := None |}))
    = (Throws "No API data available. Please fetch data first.",
       converterWith (Some {| api := None |})).
Proof.
  split.
  - apply (convertToOpenAPI_no_data (converterWith None)). left. reflexivity.
  - apply (convertToOpenAPI_no_data (converterWith (Some {| api := None |}))).
    right. exists {| api := None |}. split; reflexivity.
Defined.

End AssemblerClaims.

(** ** Where the operations of the document come from *)

Section Origin.

Lemma forEachConvertEndpoint_origin endpoints paths used paths' used' :
  forEachConvertEndpoint endpoints paths used = Some (paths', used') →
  ∀ path method operation,
    operationAt paths' path method = Some operation →
    operationAt paths path method = Some operation
    ∨ (builtFrom endpoints path method operation ∧ method ≠ "__proto__").
Proof.
  revert paths used.
  induction endpoints as [|endpoint rest IH]; intros paths used; simpl.
  - intros [= <- <-] path method operation Hat. by left.
  - destruct (convertEndpoint endpoint paths used) as [[paths1 used1]|] eqn:Hstep; [|done].
    simpl. intros Hrest path method operation Hat.
    destruct (IH _ _ Hrest _ _ _ Hat) as [Hat1|[(e & u & u' & Hin & Hrest') Hmethod]].
    2:{ right. split; [|done]. exists e, u, u'. split; [by apply list_elem_of_further | done]. }
    destruct (convertible endpoint) eqn:Hurl.
    2:{ rewrite convertEndpoint_skip in Hstep by done. injection Hstep as <- <-. by left. }
    rewrite convertEndpoint_convert in Hstep by done.
    destruct (buildOperation _ _ _ _) as [[built used2]|] eqn:Hbuild; [|done].
    injection Hstep as <- <-. rewrite operationAt_assign in Hat1.
    destruct (decide (path = _ ∧ method = _ ∧ _)) as [(-> & -> & Hstored)|_]; [|by left].
    injection Hat1 as ->. right. apply storedAt_true in Hstored as [_ Hmethod].
    split; [|done]. exists endpoint, used, used2.
    split; [apply list_elem_of_here | done].
Qed.

(** A place of the document that is filled stays filled. *)
Lemma forEachConvertEndpoint_keeps endpoints paths used paths' used' path method :
  forEachConvertEndpoint endpoints paths used = Some (paths', used') →
  is_Some (operationAt paths path method) → is_Some (operationAt paths' path method).
Proof.
  revert paths used.
  induction endpoints as [|endpoint rest IH]; intros paths used; simpl.
  - by intros [= <- <-].
  - destruct (convertEndpoint endpoint paths used) as [[paths1 used1]|] eqn:Hstep; [|done].
    simpl. intros Hrest Hat. apply (IH _ _ Hrest).
    destruct (convertible endpoint) eqn:Hurl.
    2:{ rewrite convertEndpoint_skip in Hstep by done. by injection Hstep as <- <-. }
    rewrite convertEndpoint_convert in Hstep by done.
    destruct (buildOperation _ _ _ _) as [[built used2]|] eqn:Hbuild; [|done].
    injection Hstep as <- <-. rewrite operationAt_assign.
    by destruct (decide (path = _ ∧ method = _ ∧ _)).
Qed.

(** The place of a converted endpoint is filled at the end of the run,
    unless its path is an inherited name or its method the accessor
    name. *)
Lemma forEachConvertEndpoint_fills endpoints paths used paths' used' endpoint :
  forEachConvertEndpoint endpoints paths used = Some (paths', used') →
  endpoint ∈ endpoints → convertible endpoint = true →
  Obj.inherited (pathOf endpoint) = false → methodOf endpoint ≠ "__proto__" →
  is_Some (operationAt paths' (pathOf endpoint) (methodOf endpoint)).
Proof.
  revert paths used.
  induction endpoints as [|first rest IH]; intros paths used; simpl.
  - intros _ Hin. by apply elem_of_nil in Hin.
  - destruct (convertEndpoint first paths used) as [[paths1 used1]|] eqn:Hstep; [|done].
    simpl. intros Hrest Hin Hurl Hpath Hmethod.
    apply elem_of_cons in Hin as [->|Hin]; [|by eapply IH].
    apply (forEachConvertEndpoint_keeps _ _ _ _ _ _ _ Hrest).
    rewrite convertEndpoint_convert in Hstep by done.
    destruct (buildOperation _ _ _ _) as [[built used2]|] eqn:Hbuild; [|done].
    injection Hstep as <- <-. rewrite operationAt_assign.
    rewrite decide_True; [by eexists|].
    split; [done|]. split; [done|]. apply storedAt_true. by split; [right|].
Qed.

(** The path of a URL that starts with a slash is not an inherited name. *)
Lemma inherited_slash url :
  startsWith url "/" = true → Obj.inherited (normalizePath url) = false.
Proof.
  destruct url as [|c url]; [done|].
  change (startsWith (String c url) "/") with (Ascii.eqb "/" c && true).
  rewrite andb_true_r. intros <-%Ascii.eqb_eq.
  change (normalizePath (String "/" url)) with (String "/" (normalizePath url)).
  reflexivity.
Qed.

Lemma plainPaths_elem endpoints endpoint :
  plainPaths endpoints = true → endpoint ∈ endpoints → convertible endpoint = true →
  Obj.inherited (pathOf endpoint) = false.
Proof.
  unfold plainPaths. rewrite forallb_forall. intros Hall Hin%list_elem_of_In Hurl.
  apply Hall in Hin. by rewrite Hurl, negb_true_iff in Hin.
Qed.

Lemma buildOperation_security endpoint path method used operation used' :
  buildOperation endpoint path method used = Some (operation, used') →
  o_security operation
  = if e_public endpoint then None else Some [("BearerAuth", [])].
Proof.
  unfold buildOperation.
  destruct (ensureUniqueOperationId _ _) as [[operationId used1]|]; [|done]. simpl.
  destruct (addDeprecationInfo _ _). intros [= <- <-]. simpl.
  unfold addSecurityIfNeeded. by destruct (e_public endpoint).
Qed.


End Origin.

(** ** Claims about single operations *)

Section OperationClaims.






End OperationClaims.

(** ** Identifiers issued during a run *)

Section Issued.




(** A converted record receives its synthesized identifier, with a suffix
    of the ledger when that identifier is taken. *)
Lemma operationIdIssued_total endpoints i endpoint :
  endpoints !! i = Some endpoint → convertible endpoint = true →
  ∃ suffix,
    operationIdIssued endpoints i = Some (generateOperationId endpoint +:+ suffix)
    ∧ ledgerSuffix suffix.
Proof.
  intros Hi Hurl. unfold operationIdIssued. rewrite Hi. simpl.
  destruct (forEachConvertEndpoint_total (take i endpoints) ∅ ∅) as [[paths0 used] ->].
  simpl. rewrite Hurl.
  destruct (buildOperation_total endpoint (pathOf endpoint) (methodOf endpoint) used)
    as [[operation used'] Hbuild].
  rewrite Hbuild. simpl.
  apply buildOperation_Some, ensureUniqueOperationId_Some in Hbuild
    as (_ & _ & [->|(n & Hn & ->)]).
  - exists "". rewrite append_nil_r. split; [done | by left].
  - exists (pretty n). split; [done|]. right. by exists n.
Qed.






End Issued.

(** ** The functions of the synthesizer and the wording of the specification *)

Section Wording.

Lemma toLowerCase_lowerCaseOf s : toLowerCase s = lowerCaseOf s.
Proof. unfold lowerCaseOf. induction s as [|c s IH]; [done|]. simpl. by rewrite IH. Qed.



























End Wording.

(** ** The fallback identifier *)

Section Synthesizer.






End Synthesizer.

(** ** The contextual identifier *)

Section Contextual.




End Contextual.

(** ** Generic names *)

Section GenericNames.



















End GenericNames.

(** ** Path normalization *)

Section PathNormalizer.

Lemma normalizePath_cons c r :
  normalizePath (String c r)
  = if Ascii.eqb c ":" && nonEmpty (takeWord r)
    then "{" +:+ takeWord r +:+ "}" +:+ normalizePath (dropWord r)
    else String c (normalizePath r).
Proof. reflexivity. Qed.

Lemma matchBraceTokens_cons c r :
  matchBraceTokens (String c r)
  = if Ascii.eqb c "{" && nonEmpty (takeWord r) && startsWith (dropWord r) "}"
    then ("{" +:+ takeWord r +:+ "}") :: matchBraceTokens (substring1 (dropWord r))
    else matchBraceTokens r.
Proof. reflexivity. Qed.

Lemma takeWord_empty_dropWord rest : takeWord rest = "" → dropWord rest = rest.
Proof. destruct rest as [|c r]; simpl; [done|]. by destruct (Char.isWord c). Qed.

(** A name followed by something that does not start with a word
    character is exactly what [\w+] consumes. *)
Lemma takeWord_name name rest :
  allChars Char.isWord name = true → takeWord rest = "" →
  takeWord (name +:+ rest) = name ∧ dropWord (name +:+ rest) = rest.
Proof.
  intros Hname Hrest. induction name as [|c name IH].
  - rewrite append_nil_l. by rewrite takeWord_empty_dropWord.
  - simpl in Hname. apply andb_true_iff in Hname as [Hc Hname].
    rewrite append_cons. simpl. rewrite Hc.
    destruct (IH Hname) as [-> ->]. done.
Qed.

Lemma takeWord_append_empty text rest :
  takeWord text = "" → takeWord rest = "" → takeWord (text +:+ rest) = "".
Proof.
  destruct text as [|c text]; [done|]. rewrite append_cons. simpl.
  by destruct (Char.isWord c).
Qed.

Lemma normalizePath_plain text rest :
  plainText text = true → normalizePath (text +:+ rest) = text +:+ normalizePath rest.
Proof.
  unfold plainText. induction text as [|c text IH]; [done|]. simpl.
  intros [Hc Htext]%andb_true_iff.
  apply negb_true_iff, orb_false_iff in Hc as [-> _]. simpl. by rewrite IH.
Qed.

Lemma normalizePath_token name rest :
  tokenName name = true → takeWord rest = "" →
  normalizePath (":" +:+ name +:+ rest) = "{" +:+ name +:+ "}" +:+ normalizePath rest.
Proof.
  intros [Hne Hname]%andb_true_iff Hrest.
  change (":" +:+ name +:+ rest) with (String ":" (name +:+ rest)).
  rewrite normalizePath_cons.
  destruct (takeWord_name name rest Hname Hrest) as [-> ->].
  by rewrite Hne.
Qed.

(** What follows a text in colon form starts with a colon or is empty. *)
Lemma takeWord_colon_tokens tokens :
  takeWord (join (map (λ token, ":" +:+ token.1 +:+ token.2) tokens)) = "".
Proof. by destruct tokens. Qed.

Lemma tokensOk_cons token tokens :
  tokensOk (token :: tokens) = true →
  tokenName token.1 = true ∧ plainText token.2 = true ∧ takeWord token.2 = ""
  ∧ tokensOk tokens = true.
Proof.
  unfold tokensOk. simpl.
  intros [[[Hname Htext]%andb_true_iff Hafter]%andb_true_iff Hrest]%andb_true_iff.
  repeat split; [done..| |done].
  apply negb_true_iff in Hafter. by destruct (takeWord token.2).
Qed.

Lemma normalizePath_tokens tokens :
  tokensOk tokens = true →
  normalizePath (join (map (λ token, ":" +:+ token.1 +:+ token.2) tokens))
  = join (map (λ token, "{" +:+ token.1 +:+ "}" +:+ token.2) tokens).
Proof.
  induction tokens as [|[name text] tokens IH]; [done|].
  intros (Hname & Htext & Hafter & Hrest)%tokensOk_cons.
  cbn [fst snd] in Hname, Htext, Hafter. cbn [map fst snd].
  rewrite !join_cons, !append_assoc.
  rewrite normalizePath_token; [|done|].
  - rewrite normalizePath_plain by done. by rewrite IH.
  - apply takeWord_append_empty; [done|]. apply takeWord_colon_tokens.
Qed.

(** Normalizing puts each parameter name in braces, unchanged, and leaves
    the rest of the URL alone. *)
Lemma normalizePath_colonForm head tokens :
  plainText head = true → tokensOk tokens = true →
  normalizePath (colonForm head tokens) = braceForm head tokens.
Proof.
  intros Hhead Htokens. unfold colonForm, braceForm.
  rewrite normalizePath_plain by done. by rewrite normalizePath_tokens.
Qed.

End PathNormalizer.

(** ** Path parameters *)

Section PathParameters.

Lemma matchBraceTokens_plain text rest :
  plainText text = true → matchBraceTokens (text +:+ rest) = matchBraceTokens rest.
Proof.
  unfold plainText. induction text as [|c text IH]; [done|]. simpl.
  intros [Hc Htext]%andb_true_iff.
  apply negb_true_iff, orb_false_iff in Hc as [_ ->]. simpl. by rewrite IH.
Qed.

Lemma matchBraceTokens_token name rest :
  tokenName name = true →
  matchBraceTokens ("{" +:+ name +:+ "}" +:+ rest)
  = ("{" +:+ name +:+ "}") :: matchBraceTokens rest.
Proof.
  intros [Hne Hname]%andb_true_iff.
  change ("{" +:+ name +:+ "}" +:+ rest) with (String "{" (name +:+ "}" +:+ rest)).
  rewrite matchBraceTokens_cons.
  destruct (takeWord_name name ("}" +:+ rest) Hname eq_refl) as [-> ->].
  rewrite Hne. reflexivity.
Qed.

Lemma isWord_not_brace c :
  Char.isWord c = true → negb (Ascii.eqb c "{" || Ascii.eqb c "}") = true.
Proof.
  intros Hword.
  destruct (Ascii.eqb_spec c "{") as [->|_]; [done|].
  by destruct (Ascii.eqb_spec c "}") as [->|_].
Qed.

Lemma removeBraces_token name :
  allChars Char.isWord name = true → removeBraces ("{" +:+ name +:+ "}") = name.
Proof.
  intros Hname. unfold removeBraces.
  change ("{" +:+ name +:+ "}") with (String "{" (name +:+ "}")). simpl.
  induction name as [|c name IH]; [done|].
  simpl in Hname. apply andb_true_iff in Hname as [Hc Hname].
  rewrite append_cons. simpl. rewrite (isWord_not_brace c Hc). by rewrite IH.
Qed.

Lemma matchBraceTokens_tokens tokens :
  tokensOk tokens = true →
  matchBraceTokens (join (map (λ token, "{" +:+ token.1 +:+ "}" +:+ token.2) tokens))
  = map (λ token, "{" +:+ token.1 +:+ "}") tokens.
Proof.
  induction tokens as [|[name text] tokens IH]; [done|].
  intros (Hname & Htext & Hafter & Hrest)%tokensOk_cons.
  cbn [fst snd] in Hname, Htext, Hafter. cbn [map fst snd].
  rewrite !join_cons, !append_assoc.
  rewrite matchBraceTokens_token by done.
  rewrite matchBraceTokens_plain by done. by rewrite IH.
Qed.

(** The path parameters of a normalized path are its parameter names, one
    descriptor each, from left to right. *)
Lemma extractPathParameters_braceForm head tokens :
  plainText head = true → tokensOk tokens = true →
  extractPathParameters (braceForm head tokens) = map pathParameter (map fst tokens).
Proof.
  intros Hhead Htokens. unfold extractPathParameters, braceForm.
  rewrite matchBraceTokens_plain by done. rewrite matchBraceTokens_tokens by done.
  clear Hhead. induction tokens as [|[name text] tokens IH]; [done|].
  apply tokensOk_cons in Htokens as ([_ Hname]%andb_true_iff & _ & _ & Hrest).
  cbn [map fst snd] in *. rewrite IH by done.
  by rewrite removeBraces_token.
Qed.

Lemma extractQueryParameters_in endpoint :
  Forall (λ p, p_in p = InQuery) (extractQueryParameters endpoint).
Proof.
  unfold extractQueryParameters. destruct (e_parameter endpoint) as [fields|]; [|done].
  induction (firstArray _ _) as [|param params IH]; by constructor.
Qed.

Lemma extractHeaderParameters_in endpoint :
  Forall (λ p, p_in p = InHeader) (extractHeaderParameters endpoint).
Proof.
  unfold extractHeaderParameters. destruct (e_header endpoint) as [fields|]; [|done].
  induction (firstArray _ _) as [|param params IH]; by constructor.
Qed.

Lemma buildOperation_parameters endpoint path method used operation used' :
  buildOperation endpoint path method used = Some (operation, used') →
  o_parameters operation
  = extractPathParameters path
    ++ extractQueryParameters endpoint ++ extractHeaderParameters endpoint.
Proof.
  unfold buildOperation.
  destruct (ensureUniqueOperationId _ _) as [[operationId used1]|]; [|done]. simpl.
  destruct (addDeprecationInfo _ _). by intros [= <- <-].
Qed.

Lemma orElse_empty s : orElse (Some s) "" = s.
Proof. by destruct s. Qed.

(** C3, as the code has it.  For a URL made of plain text and path
    parameters [:name], the normalized path has [{name}] for every [:name],
    the name unchanged, and is otherwise the URL; the parameter list of the
    operation starts with one path parameter descriptor per name, in the
    order of the URL, and the query parameters and then the header
    parameters come after them. *)
Theorem normalizePath_parameters endpoint head tokens used :
  plainText head = true → tokensOk tokens = true →
  e_url endpoint = Some (colonForm head tokens) →
  pathOf endpoint = braceForm head tokens
  ∧ ∃ operation used' queryParams headerParams,
      buildOperation endpoint (pathOf endpoint) (methodOf endpoint) used
      = Some (operation, used')
      ∧ o_parameters operation
        = map pathParameter (map fst tokens) ++ queryParams ++ headerParams
      ∧ Forall (λ p, p_in p = InQuery) queryParams
      ∧ Forall (λ p, p_in p = InHeader) headerParams.
Proof.
  intros Hhead Htokens Hurl.
  assert (pathOf endpoint = braceForm head tokens) as Hpath.
  { unfold pathOf. rewrite Hurl, orElse_empty. by apply normalizePath_colonForm. }
  split; [done|].
  destruct (buildOperation_total endpoint (pathOf endpoint) (methodOf endpoint) used)
    as [[operation used'] Hbuild].
  exists operation, used', (extractQueryParameters endpoint),
    (extractHeaderParameters endpoint).
  split; [done|]. split.
  - rewrite (buildOperation_parameters _ _ _ _ _ _ Hbuild), Hpath.
    by rewrite extractPathParameters_braceForm.
  - split; [apply extractQueryParameters_in | apply extractHeaderParameters_in].
Qed.

Lemma normalizePath_parameters_witness :
  pathOf mixedEndpoint
  = braceForm "/services/" [("service_id", "/users/"); ("user_id", "")]
  ∧ ∃ operation used' queryParams headerParams,
      buildOperation mixedEndpoint (pathOf mixedEndpoint) (methodOf mixedEndpoint) ∅
      = Some (operation, used')
      ∧ o_parameters operation
        = map pathParameter (map fst [("service_id", "/users/"); ("user_id", "")])
          ++ queryParams ++ headerParams
      ∧ Forall (λ p, p_in p = InQuery) queryParams
      ∧ Forall (λ p, p_in p = InHeader) headerParams.
Proof.
  apply (normalizePath_parameters mixedEndpoint "/services/"
           [("service_id", "/users/"); ("user_id", "")] ∅).
  - reflexivity.
  - reflexivity.
  - reflexivity.
Defined.

(** C3 as stated fails: the parameter name keeps its underscore in the
    normalized path and in the descriptor; it is not turned into [bC]. *)
Lemma normalizePath_counterexample :
  normalizePath "/:a/:b_c" = "/{a}/{b_c}"
  ∧ normalizePath "/:a/:b_c" ≠ "/{a}/{bC}"
  ∧ map p_name (extractPathParameters (normalizePath "/:a/:b_c")) = [Some "a"; Some "b_c"].
Proof. repeat split; try discriminate; reflexivity. Qed.

End PathParameters.

(** ** Type coercion *)

Section Coercion.

Lemma parseParameterType_coercionOf type : parseParameterType type = coercionOf type.
Proof.
  destruct type as [[|c token]|]; [done| |done].
  unfold parseParameterType, coercionOf. cbn [map fst typeMap List.find].
  repeat (destruct (includes _ _); [reflexivity|]). reflexivity.
Qed.

(** C6.  [parseParameterType] looks for the keys [string], [number],
    [integer], [int], [boolean], [bool], [array], [object], in this order,
    in the token put in lower case, and returns the schema of the first key
    that the token contains; a token that contains none of them, the empty
    token and the missing token give the string schema.  So [Integer] gives
    the integer schema and [whatever] the string schema. *)
Theorem parseParameterType_coercion :
  map fst typeMap
  = ["string"; "number"; "integer"; "int"; "boolean"; "bool"; "array"; "object"]
  ∧ (∀ type, parseParameterType type = coercionOf type)
  ∧ (∀ token i key schema,
       typeMap !! i = Some (key, schema) →
       includes (toLowerCase token) key = true →
       (∀ j key' schema', j < i → typeMap !! j = Some (key', schema') →
                          includes (toLowerCase token) key' = false) →
       parseParameterType (Some token) = schema)
  ∧ (∀ token,
       (∀ key schema, (key, schema) ∈ typeMap → includes (toLowerCase token) key = false) →
       parseParameterType (Some token) = StringSchema)
  ∧ parseParameterType None = StringSchema
  ∧ parseParameterType (Some "") = StringSchema
  ∧ parseParameterType (Some "Integer") = IntegerSchema
  ∧ parseParameterType (Some "whatever") = StringSchema.
Proof.
  split; [reflexivity|]. split; [apply parseParameterType_coercionOf|].
  split; [|split; [|by repeat split]].
  - intros token i key schema Hi Hmatch Hfirst.
    rewrite parseParameterType_coercionOf. unfold coercionOf. cbv zeta.
    do 8 (destruct i as [|i];
          [ injection Hi as <- <-;
            try rewrite (Hfirst 0 _ _ ltac:(lia) eq_refl);
            try rewrite (Hfirst 1 _ _ ltac:(lia) eq_refl);
            try rewrite (Hfirst 2 _ _ ltac:(lia) eq_refl);
            try rewrite (Hfirst 3 _ _ ltac:(lia) eq_refl);
            try rewrite (Hfirst 4 _ _ ltac:(lia) eq_refl);
            try rewrite (Hfirst 5 _ _ ltac:(lia) eq_refl);
            try rewrite (Hfirst 6 _ _ ltac:(lia) eq_refl);
            by rewrite Hmatch
          | ]).
    discriminate Hi.
  - intros token Hnone.
    rewrite parseParameterType_coercionOf. unfold coercionOf. cbv zeta.
    rewrite (Hnone _ _ (list_elem_of_lookup_2 typeMap 0 _ eq_refl)),
      (Hnone _ _ (list_elem_of_lookup_2 typeMap 1 _ eq_refl)),
      (Hnone _ _ (list_elem_of_lookup_2 typeMap 2 _ eq_refl)),
      (Hnone _ _ (list_elem_of_lookup_2 typeMap 3 _ eq_refl)),
      (Hnone _ _ (list_elem_of_lookup_2 typeMap 4 _ eq_refl)),
      (Hnone _ _ (list_elem_of_lookup_2 typeMap 5 _ eq_refl)),
      (Hnone _ _ (list_elem_of_lookup_2 typeMap 6 _ eq_refl)),
      (Hnone _ _ (list_elem_of_lookup_2 typeMap 7 _ eq_refl)).
    reflexivity.
Qed.

End Coercion.

(** ** Records without URL, and records stored at the same place *)

Section Slots.

Lemma forEachConvertEndpoint_filter endpoints paths used :
  forEachConvertEndpoint (filter (λ e, convertible e = true) endpoints) paths used
  = forEachConvertEndpoint endpoints paths used.
Proof.
  revert paths used. induction endpoints as [|endpoint rest' IH]; intros paths used; [done|].
  destruct (convertible endpoint) eqn:Hurl.
  - rewrite filter_cons_True by done. simpl.
    destruct (convertEndpoint endpoint paths used) as [[paths1 used1]|]; [|done]. apply IH.
  - rewrite filter_cons_False by (by rewrite Hurl). simpl.
    rewrite convertEndpoint_skip by done. apply IH.
Qed.

Lemma plainGroups_filter (P : Endpoint → Prop) `{∀ e, Decision (P e)} endpoints :
  plainGroups endpoints = true → plainGroups (filter P endpoints) = true.
Proof.
  unfold plainGroups. rewrite !forallb_forall. intros Hall e Hin%list_elem_of_In.
  apply list_elem_of_filter in Hin as [_ Hin]. by apply Hall, list_elem_of_In.
Qed.

(** X1.  In a run with plain keys the records without a URL (absent or
    empty) have no effect at all: the document and the ledger are those of
    the conversion of the other records. *)
Theorem convertToOpenAPI_ignores_records_without_url this endpoints :
  plainKeys endpoints = true →
  ∃ openAPISpec this1 this2,
    convertToOpenAPI (withEndpoints this (filter (λ e, convertible e = true) endpoints))
    = (Returns openAPISpec, this1)
    ∧ convertToOpenAPI (withEndpoints this endpoints) = (Returns openAPISpec, this2)
    ∧ usedOperationIds this1 = usedOperationIds this2.
Proof.
  intros Hplain%plainKeys_groups.
  destruct (convertToOpenAPI_returns
              (withEndpoints this (filter (λ e, convertible e = true) endpoints))
              _ eq_refl (plainGroups_filter _ _ Hplain))
    as (openAPISpec1 & this1 & Hcall1 & Hrun1).
  destruct (convertToOpenAPI_returns (withEndpoints this endpoints) _ eq_refl Hplain)
    as (openAPISpec2 & this2 & Hcall2 & Hrun2).
  rewrite forEachConvertEndpoint_filter, Hrun2 in Hrun1. injection Hrun1 as Hpaths Hused.
  exists openAPISpec1, this1, this2. split; [done|]. split; [|done].
  rewrite Hcall2. do 2 f_equal.
  apply convertToOpenAPI_Returns in Hcall1 as (_ & _ & _ & _ & ->).
  apply convertToOpenAPI_Returns in Hcall2 as (_ & _ & _ & _ & ->).
  simpl. by rewrite Hpaths.
Qed.

Lemma convertToOpenAPI_ignores_records_without_url_witness :
  ∃ openAPISpec this1 this2,
    convertToOpenAPI
      (withEndpoints (converterWith None)
         (filter (λ e, convertible e = true) [firstVersion; withoutUrl; companyStats]))
    = (Returns openAPISpec, this1)
    ∧ convertToOpenAPI
        (withEndpoints (converterWith None) [firstVersion; withoutUrl; companyStats])
      = (Returns openAPISpec, this2)
    ∧ usedOperationIds this1 = usedOperationIds this2.
Proof.
  apply (convertToOpenAPI_ignores_records_without_url (converterWith None)
           [firstVersion; withoutUrl; companyStats]).
  reflexivity.
Defined.

Lemma sameSlot_false endpoint endpoint' :
  sameSlot endpoint endpoint' = false → convertible endpoint' = true →
  ¬ (pathOf endpoint = pathOf endpoint' ∧ methodOf endpoint = methodOf endpoint').
Proof.
  unfold sameSlot. intros Hslot Hurl [Hpath Hmethod].
  by rewrite Hurl, Hpath, Hmethod, !String.eqb_refl in Hslot.
Qed.

(** Records that are stored elsewhere leave a place as it is. *)
Lemma forEachConvertEndpoint_elsewhere endpoints endpoint paths used paths' used' :
  existsb (sameSlot endpoint) endpoints = false →
  forEachConvertEndpoint endpoints paths used = Some (paths', used') →
  operationAt paths' (pathOf endpoint) (methodOf endpoint)
  = operationAt paths (pathOf endpoint) (methodOf endpoint).
Proof.
  revert paths used. induction endpoints as [|first rest' IH]; intros paths used; simpl.
  - by intros _ [= <- <-].
  - intros [Hfirst Hrest]%orb_false_iff.
    destruct (convertEndpoint first paths used) as [[paths1 used1]|] eqn:Hstep; [|done].
    simpl. intros Hrun. rewrite (IH _ _ Hrest Hrun).
    destruct (convertible first) eqn:Hurl.
    2:{ rewrite convertEndpoint_skip in Hstep by done. by injection Hstep as <- <-. }
    rewrite convertEndpoint_convert in Hstep by done.
    destruct (buildOperation _ _ _ _) as [[built used2]|]; [|done].
    injection Hstep as <- <-. rewrite operationAt_assign.
    rewrite decide_False; [done|]. intros (Hpath & Hmethod & _).
    by apply (sameSlot_false _ _ Hfirst Hurl).
Qed.

(** X2.  When several records of a run with plain keys have the same
    normalized path and method, the document holds the operation of the
    last of them: a record is found at its place, with the identifier it
    was issued, whenever no later record is stored at that place.  (A
    record whose method is [__proto__] is stored nowhere.) *)
Theorem convertToOpenAPI_last_record_wins this before endpoint after :
  plainKeys (before ++ endpoint :: after) = true →
  convertible endpoint = true →
  methodOf endpoint ≠ "__proto__" →
  existsb (sameSlot endpoint) after = false →
  ∃ openAPISpec this' operation used1 used2,
    convertToOpenAPI (withEndpoints this (before ++ endpoint :: after))
    = (Returns openAPISpec, this')
    ∧ operationAt (paths openAPISpec) (pathOf endpoint) (methodOf endpoint) = Some operation
    ∧ buildOperation endpoint (pathOf endpoint) (methodOf endpoint) used1
      = Some (operation, used2)
    ∧ operationIdIssued (before ++ endpoint :: after) (length before)
      = Some (o_operationId operation).
Proof.
  intros Hplain Hurl Hmethod Hafter.
  assert (Obj.inherited (pathOf endpoint) = false) as Hpath.
  { apply (plainPaths_elem _ _ (plainKeys_paths _ Hplain)); [|done].
    apply elem_of_app. right. apply list_elem_of_here. }
  destruct (convertToOpenAPI_returns (withEndpoints this (before ++ endpoint :: after))
              (before ++ endpoint :: after) eq_refl (plainKeys_groups _ Hplain))
    as (openAPISpec & this' & Hcall & Hrun).
  rewrite forEachConvertEndpoint_app in Hrun.
  destruct (forEachConvertEndpoint before ∅ ∅) as [[paths1 used1]|] eqn:Hbefore; [|done].
  simpl in Hrun. rewrite convertEndpoint_convert in Hrun by done.
  destruct (buildOperation _ _ _ _) as [[operation used2]|] eqn:Hbuild; [|done].
  simpl in Hrun.
  exists openAPISpec, this', operation, used1, used2.
  split; [done|]. split; [|split; [done|]].
  - rewrite (forEachConvertEndpoint_elsewhere _ _ _ _ _ _ Hafter Hrun).
    rewrite operationAt_assign. rewrite decide_True; [done|].
    split; [done|]. split; [done|]. apply storedAt_true. by split; [right|].
  - unfold operationIdIssued.
    rewrite list_lookup_middle by done. simpl.
    rewrite take_app_length, Hbefore. simpl. by rewrite Hurl, Hbuild.
Qed.

Lemma convertToOpenAPI_last_record_wins_witness :
  ∃ openAPISpec this' operation used1 used2,
    convertToOpenAPI
      (withEndpoints (converterWith None) ([firstVersion] ++ secondVersion :: [companyStats]))
    = (Returns openAPISpec, this')
    ∧ operationAt (paths openAPISpec) (pathOf secondVersion) (methodOf secondVersion)
      = Some operation
    ∧ buildOperation secondVersion (pathOf secondVersion) (methodOf secondVersion) used1
      = Some (operation, used2)
    ∧ operationIdIssued ([firstVersion] ++ secondVersion :: [companyStats])
        (length [firstVersion])
      = Some (o_operationId operation).
Proof.
  apply (convertToOpenAPI_last_record_wins (converterWith None)
           [firstVersion] secondVersion [companyStats]).
  - reflexivity.
  - reflexivity.
  - discriminate.
  - reflexivity.
Defined.

(** Every converted record adds exactly one identifier to the ledger. *)
Lemma forEachConvertEndpoint_size endpoints paths used paths' used' :
  forEachConvertEndpoint endpoints paths used = Some (paths', used') →
  size used' = size used + length (filter (λ e, convertible e = true) endpoints).
Proof.
  revert paths used. induction endpoints as [|endpoint rest' IH]; intros paths used; simpl.
  - intros [= <- <-]. by rewrite Nat.add_0_r.
  - destruct (convertEndpoint endpoint paths used) as [[paths1 used1]|] eqn:Hstep; [|done].
    simpl. intros Hrun. rewrite (IH _ _ Hrun).
    destruct (convertible endpoint) eqn:Hurl.
    + rewrite filter_cons_True by done. simpl.
      rewrite convertEndpoint_convert in Hstep by done.
      destruct (buildOperation _ _ _ _) as [[operation used2]|] eqn:Hbuild; [|done].
      injection Hstep as <- <-.
      apply buildOperation_Some, ensureUniqueOperationId_Some in Hbuild as (Hfresh & -> & _).
      rewrite size_union by set_solver. rewrite size_singleton. lia.
    + rewrite filter_cons_False by (by rewrite Hurl).
      rewrite convertEndpoint_skip in Hstep by done. by injection Hstep as <- <-.
Qed.

(** X3.  After a conversion with plain keys the ledger holds one
    identifier for every record with a URL, also for records whose operation
    was overwritten in the document, and the ledger holds every identifier
    of the document. *)
Theorem convertToOpenAPI_reserved_identifiers this endpoints :
  apiData this ≫= api = Some endpoints →
  plainKeys endpoints = true →
  ∃ openAPISpec this',
    convertToOpenAPI this = (Returns openAPISpec, this')
    ∧ size (usedOperationIds this') = length (filter (λ e, convertible e = true) endpoints)
    ∧ registered (paths openAPISpec) (usedOperationIds this').
Proof.
  intros Hdata Hplain%plainKeys_groups.
  destruct (convertToOpenAPI_returns _ _ Hdata Hplain)
    as (openAPISpec & this' & Hcall & Hrun).
  exists openAPISpec, this'. split; [done|]. split.
  - rewrite (forEachConvertEndpoint_size _ _ _ _ _ Hrun). by rewrite size_empty.
  - by destruct (forEachConvertEndpoint_invariant _ _ _ _ _ Hrun
                   uniqueOperationIds_empty (registered_empty ∅)) as (_ & Hreg & _).
Qed.

Lemma convertToOpenAPI_reserved_identifiers_witness :
  ∃ openAPISpec this',
    convertToOpenAPI
      (converterWith (Some {| api := Some [firstVersion; withoutUrl; secondVersion] |}))
    = (Returns openAPISpec, this')
    ∧ size (usedOperationIds this')
      = length (filter (λ e, convertible e = true) [firstVersion; withoutUrl; secondVersion])
    ∧ registered (paths openAPISpec) (usedOperationIds this').
Proof.
  apply (convertToOpenAPI_reserved_identifiers
           (converterWith (Some {| api := Some [firstVersion; withoutUrl; secondVersion] |}))
           [firstVersion; withoutUrl; secondVersion]).
  - reflexivity.
  - reflexivity.
Defined.

End Slots.

(** ** The keys of the document *)

Section Keys.

Lemma dom_assign paths path method operation :
  dom (assign paths path method operation)
  = dom paths ∪ (if Obj.inherited path then ∅ else {[path]}).
Proof.
  unfold assign, ensurePathExists, Obj.truthyAt.
  destruct (paths !! path) as [item|] eqn:Hitem.
  - rewrite bool_decide_eq_true_2 by by eexists. simpl. rewrite Hitem, dom_insert_L.
    apply elem_of_dom_2 in Hitem. destruct (Obj.inherited path); set_solver.
  - rewrite bool_decide_eq_false_2 by (by intros [? [=]]). simpl.
    destruct (Obj.inherited path).
    + rewrite Hitem. set_solver.
    + rewrite lookup_insert_eq, !dom_insert_L. set_solver.
Qed.

(** The keys of the document are the paths of the converted records,
    inherited names left out. *)
Lemma forEachConvertEndpoint_keys endpoints paths used paths' used' :
  forEachConvertEndpoint endpoints paths used = Some (paths', used') →
  dom paths'
  = dom paths
    ∪ list_to_set
        (pathOf <$> filter (λ e, convertible e && negb (Obj.inherited (pathOf e)) = true)
                      endpoints).
Proof.
  revert paths used. induction endpoints as [|endpoint rest' IH]; intros paths used; simpl.
  - intros [= <- <-]. set_solver.
  - destruct (convertEndpoint endpoint paths used) as [[paths1 used1]|] eqn:Hstep; [|done].
    simpl. intros Hrun. rewrite (IH _ _ Hrun).
    destruct (convertible endpoint) eqn:Hurl.
    + rewrite convertEndpoint_convert in Hstep by done.
      destruct (buildOperation _ _ _ _) as [[operation used2]|]; [|done].
      injection Hstep as <- <-. rewrite dom_assign.
      destruct (Obj.inherited (pathOf endpoint)) eqn:Hpath.
      * rewrite filter_cons_False by (by rewrite Hurl, Hpath). set_solver.
      * rewrite filter_cons_True by (by rewrite Hurl, Hpath).
        rewrite fmap_cons, list_to_set_cons. set_solver.
    + rewrite filter_cons_False by (by rewrite Hurl).
      rewrite convertEndpoint_skip in Hstep by done. by injection Hstep as <- <-.
Qed.

Lemma plainPaths_filter endpoints :
  plainPaths endpoints = true →
  filter (λ e, convertible e && negb (Obj.inherited (pathOf e)) = true) endpoints
  = filter (λ e, convertible e = true) endpoints.
Proof.
  induction endpoints as [|endpoint rest' IH]; [done|]. unfold plainPaths. simpl.
  intros [Hplain Hrest]%andb_true_iff. fold (plainPaths rest') in Hrest.
  destruct (convertible endpoint) eqn:Hurl.
  - apply negb_true_iff in Hplain. simpl in Hplain.
    rewrite !filter_cons_True by (by rewrite ?Hurl, ?Hplain). by rewrite IH.
  - rewrite !filter_cons_False by (by rewrite Hurl). by apply IH.
Qed.

(** X4.  In a run with plain keys the path keys of the document are
    exactly the normalized URLs of the records that have a URL.  A path
    item holds no operation only when every record with that path has the
    method [__proto__], which is stored nowhere. *)
Theorem convertToOpenAPI_path_keys this endpoints :
  apiData this ≫= api = Some endpoints →
  plainKeys endpoints = true →
  ∃ openAPISpec this',
    convertToOpenAPI this = (Returns openAPISpec, this')
    ∧ dom (paths openAPISpec)
      = list_to_set (pathOf <$> filter (λ e, convertible e = true) endpoints)
    ∧ ∀ endpoint,
        endpoint ∈ endpoints → convertible endpoint = true →
        paths openAPISpec !! pathOf endpoint = Some ∅ →
        methodOf endpoint = "__proto__".
Proof.
  intros Hdata Hplain.
  destruct (convertToOpenAPI_returns _ _ Hdata (plainKeys_groups _ Hplain))
    as (openAPISpec & this' & Hcall & Hrun).
  exists openAPISpec, this'. split; [done|]. split.
  - rewrite (forEachConvertEndpoint_keys _ _ _ _ _ Hrun), dom_empty_L.
    rewrite (plainPaths_filter _ (plainKeys_paths _ Hplain)). set_solver.
  - intros endpoint Hin Hurl Hitem.
    destruct (decide (methodOf endpoint = "__proto__")) as [|Hmethod]; [done|].
    destruct (forEachConvertEndpoint_fills _ _ _ _ _ _ Hrun Hin Hurl) as [operation Hat];
      [by eapply plainPaths_elem; [apply plainKeys_paths|..] | done |].
    unfold operationAt in Hat. rewrite Hitem in Hat. simpl in Hat.
    by rewrite lookup_empty in Hat.
Qed.

Lemma convertToOpenAPI_path_keys_witness :
  ∃ openAPISpec this',
    convertToOpenAPI
      (converterWith (Some {| api := Some [firstVersion; withoutUrl; mixedEndpoint] |}))
    = (Returns openAPISpec, this')
    ∧ dom (paths openAPISpec)
      = list_to_set
          (pathOf <$> filter (λ e, convertible e = true)
                        [firstVersion; withoutUrl; mixedEndpoint])
    ∧ ∀ endpoint,
        endpoint ∈ [firstVersion; withoutUrl; mixedEndpoint] →
        convertible endpoint = true →
        paths openAPISpec !! pathOf endpoint = Some ∅ →
        methodOf endpoint = "__proto__".
Proof.
  apply (convertToOpenAPI_path_keys
           (converterWith (Some {| api := Some [firstVersion; withoutUrl; mixedEndpoint] |}))
           [firstVersion; withoutUrl; mixedEndpoint]).
  - reflexivity.
  - reflexivity.
Defined.

(** What holds of everything [buildOperation] makes holds of every
    operation of the document. *)
Lemma operationsSatisfy_intro this endpoints (P : Endpoint → Operation → Prop) :
  (∀ endpoint used operation used',
     convertible endpoint = true →
     buildOperation endpoint (pathOf endpoint) (methodOf endpoint) used
     = Some (operation, used') →
     P endpoint operation) →
  apiData this ≫= api = Some endpoints →
  plainKeys endpoints = true →
  operationsSatisfy this endpoints P.
Proof.
  intros HP Hdata Hplain%plainKeys_groups.
  destruct (convertToOpenAPI_returns _ _ Hdata Hplain)
    as (openAPISpec & this' & Hcall & Hrun).
  exists openAPISpec, this'. split; [done|].
  intros path method operation Hat.
  destruct (forEachConvertEndpoint_origin _ _ _ _ _ Hrun _ _ _ Hat)
    as [Hempty|[(endpoint & used & used' & Hin & Hurl & <- & <- & Hbuild) _]].
  { unfold operationAt in Hempty. by rewrite lookup_empty in Hempty. }
  exists endpoint. repeat split; [done..|]. by eapply HP.
Qed.

Lemma toLower_idempotent c : Char.toLower (Char.toLower c) = Char.toLower c.
Proof. destruct c as [[] [] [] [] [] [] [] []]; reflexivity. Qed.

Lemma toLowerCase_idempotent s : toLowerCase (toLowerCase s) = toLowerCase s.
Proof. induction s as [|c s IH]; [done|]. simpl. by rewrite toLower_idempotent, IH. Qed.

(** X5.  In a run with plain keys the method keys of the document are in
    lower case, whatever the case of the [type] of the records, and none
    of them is [__proto__]. *)
Theorem convertToOpenAPI_method_keys this endpoints :
  apiData this ≫= api = Some endpoints →
  plainKeys endpoints = true →
  ∃ openAPISpec this',
    convertToOpenAPI this = (Returns openAPISpec, this')
    ∧ ∀ path method,
        is_Some (operationAt (paths openAPISpec) path method) →
        lowerCaseOf method = method ∧ method ≠ "__proto__".
Proof.
  intros Hdata Hplain.
  destruct (convertToOpenAPI_returns _ _ Hdata (plainKeys_groups _ Hplain))
    as (openAPISpec & this' & Hcall & Hrun).
  exists openAPISpec, this'. split; [done|].
  intros path method [operation Hat].
  destruct (forEachConvertEndpoint_origin _ _ _ _ _ Hrun _ _ _ Hat)
    as [Hempty|[(endpoint & _ & _ & _ & _ & _ & <- & _) Hmethod]].
  { unfold operationAt in Hempty. by rewrite lookup_empty in Hempty. }
  split; [|done]. rewrite <- toLowerCase_lowerCaseOf. apply toLowerCase_idempotent.
Qed.

Lemma convertToOpenAPI_method_keys_witness :
  ∃ openAPISpec this',
    convertToOpenAPI (converterWith (Some {| api := Some [publicEndpoint; firstVersion] |}))
    = (Returns openAPISpec, this')
    ∧ ∀ path method,
        is_Some (operationAt (paths openAPISpec) path method) →
        lowerCaseOf method = method ∧ method ≠ "__proto__".
Proof.
  apply (convertToOpenAPI_method_keys
           (converterWith (Some {| api := Some [publicEndpoint; firstVersion] |}))
           [publicEndpoint; firstVersion]).
  - reflexivity.
  - reflexivity.
Defined.

End Keys.

(** ** The parts of an operation *)

Section OperationParts.

Lemma buildOperation_parts endpoint path method used operation used' :
  buildOperation endpoint path method used = Some (operation, used') →
  o_summary operation
  = orElse (e_title endpoint)
      (orElse (e_name endpoint) (toUpperCase method +:+ " " +:+ path))
  ∧ (o_deprecated operation, o_description operation)
    = addDeprecationInfo endpoint (orElse (e_description endpoint) "")
  ∧ o_tags operation = [tagOf endpoint]
  ∧ o_responses operation = addResponses endpoint
  ∧ o_requestBody operation = addRequestBodyIfNeeded endpoint method.
Proof.
  unfold buildOperation.
  destruct (ensureUniqueOperationId _ _) as [[operationId used1]|]; [|done]. simpl.
  destruct (addDeprecationInfo _ _). by intros [= <- <-].
Qed.

Lemma buildErrorResponse_cases endpoint :
  buildErrorResponse endpoint
  = match errorFieldsOf endpoint with
    | [] => ∅
    | _ :: _ => {[ "400" := {| r_description := "Bad Request";
                               r_content := Some ErrorEnvelope |} ]}
    end.
Proof.
  unfold buildErrorResponse, errorFieldsOf.
  destruct (e_error endpoint) as [errorFields|]; [|done].
  by destruct (firstArray _ _).
Qed.

Lemma addResponses_lookup endpoint code :
  addResponses endpoint !! code
  = if decide (code = "401") then Some {| r_description := "Unauthorized"; r_content := None |}
    else if decide (code = "403") then Some {| r_description := "Forbidden"; r_content := None |}
    else if decide (code = "404") then Some {| r_description := "Not Found"; r_content := None |}
    else if decide (code = "500")
         then Some {| r_description := "Internal Server Error"; r_content := None |}
    else if decide (code = "400")
         then match errorFieldsOf endpoint with
              | [] => None
              | _ :: _ => Some {| r_description := "Bad Request";
                                  r_content := Some ErrorEnvelope |}
              end
    else if decide (code = "200") then Some (buildSuccessResponse endpoint)
    else None.
Proof.
  unfold addResponses, buildStandardResponses. rewrite buildErrorResponse_cases.
  rewrite !lookup_union, !lookup_insert, lookup_empty.
  destruct (errorFieldsOf endpoint); rewrite ?lookup_empty, !lookup_singleton;
    repeat case_decide; simplify_eq; reflexivity.
Qed.

(** X6.  Every operation of the document has the responses 200, 401, 403,
    404 and 500, has the response 400 exactly when its record declares at
    least one error field, and has no other response.  The 200 response is
    "Successful operation" with an open object schema when no success field
    is declared and the declared properties otherwise; the four standard
    responses have no content. *)
Theorem convertToOpenAPI_responses this endpoints :
  apiData this ≫= api = Some endpoints →
  plainKeys endpoints = true →
  operationsSatisfy this endpoints (λ endpoint operation,
    (∀ code, is_Some (o_responses operation !! code)
             ↔ code ∈ ["200"; "401"; "403"; "404"; "500"]
               ∨ (code = "400" ∧ errorFieldsOf endpoint ≠ []))
    ∧ o_responses operation !! "200"
      = Some {| r_description := "Successful operation";
                r_content :=
                  Some (match extractSuccessFields endpoint with
                        | [] => OpenObject
                        | fields => ObjectOf (buildResponseProperties fields) []
                        end) |}
    ∧ (∀ code, code ∈ ["401"; "403"; "404"; "500"] →
               r_content <$> o_responses operation !! code = Some None)).
Proof.
  intros Hdata Hplain. apply operationsSatisfy_intro; [|done..]. intros endpoint used operation used' _ Hbuild.
  apply buildOperation_parts in Hbuild as (_ & _ & _ & -> & _).
  split; [|split].
  - intros code. rewrite addResponses_lookup.
    rewrite !elem_of_cons, elem_of_nil.
    repeat (case_decide; [subst; split; [naive_solver | by eexists]|]).
    case_decide as H400.
    { subst. destruct (errorFieldsOf endpoint).
      - split; [by intros [? [=]] | naive_solver].
      - split; [naive_solver | by eexists]. }
    case_decide; [subst; split; [naive_solver | by eexists]|].
    split; [by intros [? [=]] | naive_solver].
  - rewrite addResponses_lookup. simpl. unfold buildSuccessResponse.
    by destruct (extractSuccessFields endpoint).
  - intros code. rewrite !elem_of_cons, elem_of_nil, addResponses_lookup.
    intros [->|[->|[->|[->|[]]]]]; reflexivity.
Qed.

Lemma convertToOpenAPI_responses_witness :
  operationsSatisfy (converterWith (Some {| api := Some [richEndpoint; companyStats] |}))
    [richEndpoint; companyStats] (λ endpoint operation,
    (∀ code, is_Some (o_responses operation !! code)
             ↔ code ∈ ["200"; "401"; "403"; "404"; "500"]
               ∨ (code = "400" ∧ errorFieldsOf endpoint ≠ []))
    ∧ o_responses operation !! "200"
      = Some {| r_description := "Successful operation";
                r_content :=
                  Some (match extractSuccessFields endpoint with
                        | [] => OpenObject
                        | fields => ObjectOf (buildResponseProperties fields) []
                        end) |}
    ∧ (∀ code, code ∈ ["401"; "403"; "404"; "500"] →
               r_content <$> o_responses operation !! code = Some None)).
Proof.
  apply (convertToOpenAPI_responses
           (converterWith (Some {| api := Some [richEndpoint; companyStats] |}))
           [richEndpoint; companyStats]).
  - reflexivity.
  - reflexivity.
Defined.

End OperationParts.

(** ** Declared fields, request bodies and descriptions *)

Section Fields.

Lemma buildResponsePropertiesFrom_lookup (fields : list Field) properties key :
  buildResponsePropertiesFrom fields properties !! key
  = match last (filter (λ field, propertyKey (f_field field) = key) fields) with
    | Some field =>
        if decide (key = "__proto__") then properties !! key else Some (propertyOf field)
    | None => properties !! key
    end.
Proof.
  revert properties. induction fields as [|field fields IH]; intros properties; [done|].
  simpl. rewrite IH, lookup_write.
  destruct (decide (propertyKey (f_field field) = key)) as [Hkey|Hkey].
  - rewrite filter_cons_True by done. rewrite last_cons.
    destruct (last (filter _ fields)); [by repeat case_decide; naive_solver|].
    rewrite <- Hkey. by repeat case_decide; naive_solver.
  - rewrite filter_cons_False by done.
    rewrite decide_False by (intros [? _]; congruence). done.
Qed.

(** The request body schema has the properties that the same fields give
    as response properties, and requires the fields that are not
    optional. *)
Lemma buildRequestBodySchemaFrom_parts (bodyParams : list Field) properties required :
  buildRequestBodySchemaFrom bodyParams properties required
  = (buildResponsePropertiesFrom bodyParams properties,
     required ++ (f_field <$> filter (λ field, f_optional field = false) bodyParams)).
Proof.
  revert properties required.
  induction bodyParams as [|param rest' IH]; intros properties required; simpl.
  - by rewrite app_nil_r.
  - rewrite IH. f_equal. destruct (f_optional param) eqn:Hopt; simpl.
    + by rewrite filter_cons_False by (by rewrite Hopt).
    + rewrite filter_cons_True by done. by rewrite fmap_cons, <- app_assoc.
Qed.

(** X7.  The declared fields of a group become the properties of the object
    schema, each under its field name with the coerced type and the
    description; when a name is declared more than once, the last
    declaration is the one that counts.  A field named [__proto__] gives no
    property.  A request body schema has the same properties and lists as
    required the fields that are not optional, in the order of their
    declaration. *)
Theorem declared_fields_properties (fields : list Field) key :
  buildResponseProperties fields !! key
  = (if decide (key = "__proto__") then None
     else propertyOf <$> last (filter (λ field, propertyKey (f_field field) = key) fields))
  ∧ (buildRequestBodySchema fields).1 !! key = buildResponseProperties fields !! key
  ∧ (buildRequestBodySchema fields).2
    = f_field <$> filter (λ field, f_optional field = false) fields.
Proof.
  unfold buildResponseProperties, buildRequestBodySchema.
  rewrite buildRequestBodySchemaFrom_parts. simpl.
  rewrite buildResponsePropertiesFrom_lookup, lookup_empty.
  split; [|done]. by destruct (last _), (decide _).
Qed.

Lemma methodsWithBody_elem method :
  existsb (String.eqb method) methodsWithBody = true ↔ method ∈ ["post"; "put"; "patch"].
Proof.
  rewrite existsb_exists. setoid_rewrite String.eqb_eq. setoid_rewrite <- list_elem_of_In.
  unfold methodsWithBody. naive_solver.
Qed.

Lemma required_nonempty (bodyParams : list Field) :
  (0 <? length (f_field <$> filter (λ field, f_optional field = false) bodyParams)) = true
  ↔ ∃ field, field ∈ bodyParams ∧ f_optional field = false.
Proof.
  rewrite Nat.ltb_lt, length_fmap. split.
  - destruct (filter _ bodyParams) as [|field others] eqn:Hfilter; simpl; [lia|].
    intros _. exists field.
    assert (field ∈ filter (λ field, f_optional field = false) bodyParams) as Hfield
      by (rewrite Hfilter; apply list_elem_of_here).
    apply list_elem_of_filter in Hfield as [Hopt Hin]. done.
  - intros (field & Hin & Hopt).
    assert (field ∈ filter (λ field, f_optional field = false) bodyParams) as Hfield
      by by apply list_elem_of_filter.
    destruct (filter _ bodyParams); [by apply elem_of_nil in Hfield | simpl; lia].
Qed.

(** X8.  An operation of the document has a request body exactly when its
    method is [post], [put] or [patch] and its record declares at least one
    body field.  The body is an object with the declared fields as
    properties, and it is required exactly when one of the fields is not
    optional. *)
Theorem convertToOpenAPI_request_bodies this endpoints :
  apiData this ≫= api = Some endpoints →
  plainKeys endpoints = true →
  operationsSatisfy this endpoints (λ endpoint operation,
    (is_Some (o_requestBody operation)
     ↔ methodOf endpoint ∈ ["post"; "put"; "patch"] ∧ extractBodyParameters endpoint ≠ [])
    ∧ ∀ requestBody,
        o_requestBody operation = Some requestBody →
        rb_schema requestBody
        = ObjectOf (buildResponseProperties (extractBodyParameters endpoint))
            (f_field <$> filter (λ field, f_optional field = false)
                           (extractBodyParameters endpoint))
        ∧ (rb_required requestBody = true
           ↔ ∃ field, field ∈ extractBodyParameters endpoint ∧ f_optional field = false)).
Proof.
  intros Hdata Hplain. apply operationsSatisfy_intro; [|done..]. intros endpoint used operation used' _ Hbuild.
  apply buildOperation_parts in Hbuild as (_ & _ & _ & _ & ->).
  unfold addRequestBodyIfNeeded.
  destruct (existsb (String.eqb (methodOf endpoint)) methodsWithBody) eqn:Hmethod.
  - apply methodsWithBody_elem in Hmethod.
    unfold addRequestBody, buildRequestBodySchema.
    rewrite buildRequestBodySchemaFrom_parts.
    destruct (extractBodyParameters endpoint) as [|param params] eqn:Hbody.
    + split; [|done]. split; [by intros [? [=]] | by intros [_ []]].
    + split; [split; [done | by eexists]|].
      intros requestBody [= <-]. simpl. split; [done|]. apply required_nonempty.
  - split; [|done]. split; [by intros [? [=]]|].
    intros [Hmethod' _]. apply methodsWithBody_elem in Hmethod'. congruence.
Qed.

Lemma convertToOpenAPI_request_bodies_witness :
  operationsSatisfy (converterWith (Some {| api := Some [richEndpoint; companyStats] |}))
    [richEndpoint; companyStats] (λ endpoint operation,
    (is_Some (o_requestBody operation)
     ↔ methodOf endpoint ∈ ["post"; "put"; "patch"] ∧ extractBodyParameters endpoint ≠ [])
    ∧ ∀ requestBody,
        o_requestBody operation = Some requestBody →
        rb_schema requestBody
        = ObjectOf (buildResponseProperties (extractBodyParameters endpoint))
            (f_field <$> filter (λ field, f_optional field = false)
                           (extractBodyParameters endpoint))
        ∧ (rb_required requestBody = true
           ↔ ∃ field, field ∈ extractBodyParameters endpoint ∧ f_optional field = false)).
Proof.
  apply (convertToOpenAPI_request_bodies
           (converterWith (Some {| api := Some [richEndpoint; companyStats] |}))
           [richEndpoint; companyStats]).
  - reflexivity.
  - reflexivity.
Defined.

Lemma addDeprecationInfo_note endpoint description :
  addDeprecationInfo endpoint description
  = (bool_decide (is_Some (e_deprecated endpoint)),
     description +:+ deprecationNote endpoint).
Proof.
  unfold addDeprecationInfo, deprecationNote.
  destruct (e_deprecated endpoint) as [deprecated|]; simpl; [|by rewrite append_nil_r].
  destruct (d_content deprecated) as [content|]; simpl; [|by rewrite append_nil_r].
  destruct (nonEmpty content); [done | by rewrite append_nil_r].
Qed.

Lemma orElse_nonEmpty (value : option string) s :
  nonEmpty s = true → nonEmpty (orElse value s) = true.
Proof.
  intros Hs. unfold orElse. destruct value as [v|]; [|done].
  by destruct (nonEmpty v) eqn:Hv.
Qed.

(** X9.  Every operation of the document is flagged deprecated exactly when
    its record is; its description is the declared description, followed by
    the deprecation note when the record has one.  Its summary is the
    title, else the name, else the method in upper case and the path, and is
    never empty; it has exactly one tag, the group of its record or
    [Default]. *)
Theorem convertToOpenAPI_descriptions this endpoints :
  apiData this ≫= api = Some endpoints →
  plainKeys endpoints = true →
  operationsSatisfy this endpoints (λ endpoint operation,
    (o_deprecated operation = true ↔ is_Some (e_deprecated endpoint))
    ∧ o_description operation
      = orElse (e_description endpoint) "" +:+ deprecationNote endpoint
    ∧ (truthy (e_title endpoint) = true → Some (o_summary operation) = e_title endpoint)
    ∧ (truthy (e_title endpoint) = false → truthy (e_name endpoint) = true →
       Some (o_summary operation) = e_name endpoint)
    ∧ (truthy (e_title endpoint) = false → truthy (e_name endpoint) = false →
       capitalsInRange (methodOf endpoint) = true →
       o_summary operation = toUpperCase (methodOf endpoint) +:+ " " +:+ pathOf endpoint)
    ∧ o_summary operation ≠ ""
    ∧ o_tags operation = [tagOf endpoint]
    ∧ tagOf endpoint ≠ "").
Proof.
  intros Hdata Hplain. apply operationsSatisfy_intro; [|done..]. intros endpoint used operation used' _ Hbuild.
  apply buildOperation_parts in Hbuild as (Hsummary & Hdeprecated & Htags & _ & _).
  rewrite addDeprecationInfo_note in Hdeprecated. injection Hdeprecated as Hflag Hdescription.
  split; [|split; [done|split; [|split; [|split; [|split; [|split; [done|]]]]]]].
  - rewrite Hflag. apply bool_decide_eq_true.
  - rewrite Hsummary. unfold truthy, orElse.
    destruct (e_title endpoint) as [title|]; [|done]. by intros ->.
  - rewrite Hsummary. unfold truthy, orElse.
    destruct (e_title endpoint) as [title|], (e_name endpoint) as [name|]; try done.
    + intros -> Hname. by rewrite Hname.
    + by intros _ ->.
  - rewrite Hsummary. unfold truthy, orElse.
    destruct (e_title endpoint) as [title|], (e_name endpoint) as [name|]; try done.
    + by intros -> ->.
    + by intros ->.
    + by intros _ ->.
  - assert (nonEmpty (o_summary operation) = true) as Hne.
    { rewrite Hsummary. do 2 apply orElse_nonEmpty.
      by destruct (toUpperCase (methodOf endpoint)). }
    intros Hempty. by rewrite Hempty in Hne.
  - assert (nonEmpty (tagOf endpoint) = true) as Hne by by apply orElse_nonEmpty.
    intros Hempty. by rewrite Hempty in Hne.
Qed.

Lemma convertToOpenAPI_descriptions_witness :
  operationsSatisfy (converterWith (Some {| api := Some [richEndpoint; untypedEndpoint] |}))
    [richEndpoint; untypedEndpoint] (λ endpoint operation,
    (o_deprecated operation = true ↔ is_Some (e_deprecated endpoint))
    ∧ o_description operation
      = orElse (e_description endpoint) "" +:+ deprecationNote endpoint
    ∧ (truthy (e_title endpoint) = true → Some (o_summary operation) = e_title endpoint)
    ∧ (truthy (e_title endpoint) = false → truthy (e_name endpoint) = true →
       Some (o_summary operation) = e_name endpoint)
    ∧ (truthy (e_title endpoint) = false → truthy (e_name endpoint) = false →
       capitalsInRange (methodOf endpoint) = true →
       o_summary operation = toUpperCase (methodOf endpoint) +:+ " " +:+ pathOf endpoint)
    ∧ o_summary operation ≠ ""
    ∧ o_tags operation = [tagOf endpoint]
    ∧ tagOf endpoint ≠ "").
Proof.
  apply (convertToOpenAPI_descriptions
           (converterWith (Some {| api := Some [richEndpoint; untypedEndpoint] |}))
           [richEndpoint; untypedEndpoint]).
  - reflexivity.
  - reflexivity.
Defined.

End Fields.

(** ** The document header, the groups, and repeated reservations *)

Section HeaderAndGroups.

(** X10.  The document declares the security scheme [BearerAuth] (HTTP
    bearer), and every security requirement of every operation names a
    scheme that the document declares, with no scopes.  The version tag is
    [3.1.1] and the only server is the configured one. *)
Theorem convertToOpenAPI_security_schemes this endpoints :
  apiData this ≫= api = Some endpoints →
  plainKeys endpoints = true →
  ∃ openAPISpec this',
    convertToOpenAPI this = (Returns openAPISpec, this')
    ∧ openapi openAPISpec = "3.1.1"
    ∧ s_url <$> servers openAPISpec = [serverUrl (config this)]
    ∧ c_securitySchemes (components openAPISpec) !! "BearerAuth"
      = Some {| ss_type := "http"; ss_scheme := "bearer";
                ss_description := "Bearer token authentication" |}
    ∧ ∀ path method operation requirements scheme scopes,
        operationAt (paths openAPISpec) path method = Some operation →
        o_security operation = Some requirements →
        (scheme, scopes) ∈ requirements →
        is_Some (c_securitySchemes (components openAPISpec) !! scheme) ∧ scopes = [].
Proof.
  intros Hdata Hplain%plainKeys_groups.
  destruct (convertToOpenAPI_returns _ _ Hdata Hplain)
    as (openAPISpec & this' & Hcall & Hrun).
  exists openAPISpec, this'. split; [done|].
  apply convertToOpenAPI_Returns in Hcall as (_ & _ & _ & _ & Hskeleton).
  rewrite Hskeleton. simpl.
  split; [done|]. split; [done|]. split; [done|].
  intros path method operation requirements scheme scopes Hat Hsecurity Hin.
  destruct (forEachConvertEndpoint_origin _ _ _ _ _ Hrun _ _ _ Hat)
    as [Hempty|[(endpoint & used & used' & _ & _ & _ & _ & Hbuild) _]].
  { unfold operationAt in Hempty. by rewrite lookup_empty in Hempty. }
  apply buildOperation_security in Hbuild. rewrite Hbuild in Hsecurity.
  destruct (e_public endpoint); [done|]. injection Hsecurity as <-.
  apply list_elem_of_singleton in Hin. injection Hin as -> ->. by split; [eexists|].
Qed.

Lemma convertToOpenAPI_security_schemes_witness :
  ∃ openAPISpec this',
    convertToOpenAPI (converterWith (Some {| api := Some [publicEndpoint; richEndpoint] |}))
    = (Returns openAPISpec, this')
    ∧ openapi openAPISpec = "3.1.1"
    ∧ s_url <$> servers openAPISpec
      = [serverUrl (config (converterWith
                              (Some {| api := Some [publicEndpoint; richEndpoint] |})))]
    ∧ c_securitySchemes (components openAPISpec) !! "BearerAuth"
      = Some {| ss_type := "http"; ss_scheme := "bearer";
                ss_description := "Bearer token authentication" |}
    ∧ ∀ path method operation requirements scheme scopes,
        operationAt (paths openAPISpec) path method = Some operation →
        o_security operation = Some requirements →
        (scheme, scopes) ∈ requirements →
        is_Some (c_securitySchemes (components openAPISpec) !! scheme) ∧ scopes = [].
Proof.
  apply (convertToOpenAPI_security_schemes
           (converterWith (Some {| api := Some [publicEndpoint; richEndpoint] |}))
           [publicEndpoint; richEndpoint]).
  - reflexivity.
  - reflexivity.
Defined.

(** X11.  When no record has an inherited name as its tag,
    [groupEndpointsByGroup] files every record under the tag that its
    operation carries: the members of a group are the records with that
    tag, in the order of the input, and there is no group without members.
    When some record has such a tag, as [constructor] or [toString], the
    grouping throws, and with it [convertToOpenAPI], which has cleared the
    ledger by then and returns no document. *)
Theorem groupEndpointsByGroup_members endpoints :
  (plainGroups endpoints = true →
   ∃ groups,
     groupEndpointsByGroup endpoints = Returns groups
     ∧ ∀ group,
         groups !! group
         = match filter (λ endpoint, tagOf endpoint = group) endpoints with
           | [] => None
           | members => Some members
           end)
  ∧ (plainGroups endpoints = false →
     groupEndpointsByGroup endpoints = TypeError
     ∧ ∀ this,
         convertToOpenAPI (withEndpoints this endpoints)
         = (TypeError, withUsedOperationIds (withEndpoints this endpoints) ∅)).
Proof.
  pose proof (groupEndpointsByGroup_cases endpoints) as Hcases. split; intros Hplain.
  - by rewrite Hplain in Hcases.
  - rewrite Hplain in Hcases. split; [done|]. intros this.
    by apply (convertToOpenAPI_throws _ endpoints).
Qed.

(** Once the base identifier and the candidates below [k] are taken and
    the next [n] candidates are free, the next [n] calls return these
    candidates in order. *)
Lemma reserveTimes_from n k baseId used :
  2 ≤ k →
  baseId ∈ used →
  (∀ m, 2 ≤ m < k → candidate baseId m ∈ used) →
  (∀ m, k ≤ m < k + n → candidate baseId m ∉ used) →
  reserveTimes n baseId used
  = Some (candidate baseId <$> seq k n, list_to_set (candidate baseId <$> seq k n) ∪ used).
Proof.
  revert k used. induction n as [|n IH]; intros k used Hk Hbase Hbelow Hfree.
  { simpl. f_equal. f_equal. set_solver. }
  simpl.
  destruct (ensureUniqueOperationId_taken _ _ Hbase) as (j & Hj & Hjfree & Hjbelow & ->).
  simpl.
  assert (j = k) as ->.
  { destruct (decide (j < k)); [by destruct Hjfree; apply Hbelow; lia|].
    destruct (decide (k < j)); [|lia].
    destruct (Hfree k); [lia|]. apply Hjbelow. lia. }
  rewrite (IH (S k) ({[candidate baseId k]} ∪ used)); [| lia | set_solver | |].
  - simpl. f_equal. f_equal. set_solver.
  - intros m Hm. destruct (decide (m = k)) as [->|]; [set_solver|].
    apply elem_of_union_r, Hbelow. lia.
  - intros m Hm [Heq%elem_of_singleton|Hin]%elem_of_union.
    + apply candidate_inj in Heq. lia.
    + apply (Hfree m); [lia | done].
Qed.

Lemma pretty_N_go_nonempty x s : s ≠ "" → pretty_N_go x s ≠ "".
Proof.
  revert s. induction (N.lt_wf_0 x) as [x _ IH]; intros s Hs.
  destruct (decide (x = 0)%N) as [->|Hx]; [by rewrite pretty_N_go_0|].
  rewrite pretty_N_go_step by lia. apply IH; [|done]. apply N.div_lt; lia.
Qed.

(** A numbered form of an identifier is not the identifier itself. *)
Lemma candidate_ne_base baseId m : candidate baseId m ≠ baseId.
Proof.
  unfold candidate. intros Heq.
  assert (baseId +:+ pretty m = baseId +:+ "") as Heq' by by rewrite append_nil_r.
  apply (inj (String.app baseId)) in Heq'. revert Heq'.
  unfold pretty, pretty_nat, pretty, pretty_N.
  destruct (decide (N.of_nat m = 0%N)); [done|].
  rewrite pretty_N_go_step by lia. by apply pretty_N_go_nonempty.
Qed.

(** X12.  Reserving the same base identifier again and again, on a ledger
    that holds neither it nor its numbered forms, returns the base
    identifier and then the base identifier with 2, 3, 4, ... appended, and
    adds exactly these identifiers to the ledger. *)
Theorem reserveTimes_sequence n baseId used :
  baseId ∉ used →
  (∀ m, 2 ≤ m < 2 + n → baseId +:+ pretty m ∉ used) →
  reserveTimes (S n) baseId used
  = Some (baseId :: ((λ m, baseId +:+ pretty m) <$> seq 2 n),
          list_to_set (baseId :: ((λ m, baseId +:+ pretty m) <$> seq 2 n)) ∪ used).
Proof.
  intros Hbase Hfree. simpl. rewrite ensureUniqueOperationId_fresh by done. simpl.
  rewrite (reserveTimes_from n 2 baseId ({[baseId]} ∪ used)); [| lia | set_solver | |].
  - simpl. f_equal. f_equal. unfold candidate. set_solver.
  - intros m Hm. lia.
  - intros m Hm [Heq%elem_of_singleton|Hin]%elem_of_union.
    + by apply candidate_ne_base in Heq.
    + by apply (Hfree m).
Qed.

Lemma reserveTimes_sequence_witness :
  reserveTimes (S 10) "ManyDuplicates" {["Other"]}
  = Some ("ManyDuplicates" :: ((λ m, "ManyDuplicates" +:+ pretty m) <$> seq 2 10),
          list_to_set ("ManyDuplicates" :: ((λ m, "ManyDuplicates" +:+ pretty m) <$> seq 2 10))
          ∪ {["Other"]}).
Proof.
  apply (reserveTimes_sequence 10 "ManyDuplicates" {["Other"]}).
  - intros Hin%elem_of_singleton. discriminate Hin.
  - intros m Hm Hin%elem_of_singleton.
    assert (String.length ("ManyDuplicates" +:+ pretty m) = String.length "Other") as Hlen
      by by rewrite Hin.
    revert Hlen. generalize (pretty m). intros suffix. vm_compute. discriminate.
Defined.

End HeaderAndGroups.

(** ** Identifiers that are kept as synthesized *)

Section Kept.






End Kept.

(** ** Scanning for path parameters *)

Section Scanning.

Lemma takeWord_dropWord s : takeWord s +:+ dropWord s = s.
Proof.
  induction s as [|c s IH]; [done|]. simpl.
  destruct (Char.isWord c); [|done]. by rewrite append_cons, IH.
Qed.

Lemma takeWord_allWord s : allChars Char.isWord (takeWord s) = true.
Proof.
  induction s as [|c s IH]; [done|]. simpl.
  destruct (Char.isWord c) eqn:Hc; [|done]. simpl. by rewrite Hc.
Qed.

Lemma dropWord_length s : String.length (dropWord s) ≤ String.length s.
Proof.
  induction s as [|c s IH]; [done|]. simpl.
  destruct (Char.isWord c); simpl; lia.
Qed.

Lemma isWord_plain c :
  Char.isWord c = true → negb (Ascii.eqb c ":" || Ascii.eqb c "{") = true.
Proof.
  intros Hword.
  destruct (Ascii.eqb_spec c ":") as [->|_]; [done|].
  by destruct (Ascii.eqb_spec c "{") as [->|_].
Qed.

Lemma allWord_plainText s : allChars Char.isWord s = true → plainText s = true.
Proof.
  unfold plainText. induction s as [|c s IH]; [done|]. simpl.
  intros [Hc Hs]%andb_true_iff. by rewrite (isWord_plain c Hc), IH.
Qed.

Lemma takeWord_normalizePath r : takeWord r = "" → takeWord (normalizePath r) = "".
Proof.
  destruct r as [|d r]; [done|]. rewrite normalizePath_cons. simpl.
  destruct (Char.isWord d) eqn:Hd; [done|]. intros _.
  destruct (Ascii.eqb d ":" && nonEmpty (takeWord r)); [done|]. simpl. by rewrite Hd.
Qed.

Lemma normalizePath_idempotent_bounded n url :
  String.length url ≤ n → normalizePath (normalizePath url) = normalizePath url.
Proof.
  revert url. induction n as [|n IH]; intros [|c r]; simpl String.length; try done; [lia|].
  intros Hlen. rewrite normalizePath_cons.
  destruct (Ascii.eqb c ":" && nonEmpty (takeWord r)) eqn:Htoken.
  - change ("{" +:+ takeWord r +:+ "}" +:+ normalizePath (dropWord r))
      with (String "{" (takeWord r +:+ String "}" (normalizePath (dropWord r)))).
    rewrite normalizePath_cons. cbn [Ascii.eqb Bool.eqb andb].
    rewrite normalizePath_plain by apply allWord_plainText, takeWord_allWord.
    rewrite normalizePath_cons. cbn [Ascii.eqb Bool.eqb andb].
    rewrite IH; [done|]. pose proof (dropWord_length r). lia.
  - rewrite normalizePath_cons.
    assert (Ascii.eqb c ":" && nonEmpty (takeWord (normalizePath r)) = false) as ->.
    { apply andb_false_iff in Htoken as [Hc|Hword]; [by rewrite Hc|].
      rewrite takeWord_normalizePath; [apply andb_false_r|].
      by destruct (takeWord r). }
    rewrite IH; [done | lia].
Qed.

(** X15.  Normalizing a path that is already normalized changes nothing:
    after [normalizePath] no colon of the path is followed by a word
    character any more. *)
Theorem normalizePath_idempotent url :
  normalizePath (normalizePath url) = normalizePath url.
Proof. by apply (normalizePath_idempotent_bounded (String.length url)). Qed.

Lemma startsWith_split s p : startsWith s p = true → ∃ rest, s = p +:+ rest.
Proof.
  revert s. induction p as [|a p IH]; intros s; [by exists s|].
  destruct s as [|b s]; [done|]. simpl.
  intros [Hab Hp]%andb_true_iff. apply Ascii.eqb_eq in Hab as ->.
  destruct (IH _ Hp) as [rest' ->]. by exists rest'.
Qed.

Lemma startsWith_append p rest : startsWith (p +:+ rest) p = true.
Proof.
  induction p as [|a p IH]; [done|]. rewrite append_cons. simpl.
  by rewrite Ascii.eqb_refl, IH.
Qed.

Lemma includes_cons c s token :
  includes (String c s) token = startsWith (String c s) token || includes s token.
Proof. reflexivity. Qed.

Lemma includes_startsWith s token : startsWith s token = true → includes s token = true.
Proof. intros Hstart. destruct s; simpl; by rewrite Hstart. Qed.

Lemma includes_append_r pre s token :
  includes s token = true → includes (pre +:+ s) token = true.
Proof.
  intros Hs. induction pre as [|c pre IH]; [done|].
  rewrite append_cons, includes_cons, IH. apply orb_true_r.
Qed.

(** An occurrence of a brace token does not start inside a run of word
    characters. *)
Lemma includes_skip_word w x token' :
  allChars Char.isWord w = true →
  includes (w +:+ x) (String "{" token') = true → includes x (String "{" token') = true.
Proof.
  induction w as [|c w IH]; [done|]. simpl allChars.
  intros [Hc Hw]%andb_true_iff. rewrite append_cons, includes_cons.
  intros [Hstart|Hrest]%orb_true_iff; [|by apply IH].
  change (startsWith (String c (w +:+ x)) (String "{" token'))
    with (Ascii.eqb "{" c && startsWith (w +:+ x) token') in Hstart.
  apply andb_true_iff in Hstart as [Heq _].
  apply Ascii.eqb_eq in Heq as <-. done.
Qed.

Lemma matchBraceTokens_sound_bounded n path token :
  String.length path ≤ n →
  token ∈ matchBraceTokens path →
  ∃ name, token = "{" +:+ name +:+ "}" ∧ tokenName name = true
          ∧ includes path token = true.
Proof.
  revert path. induction n as [|n IH]; intros [|c r]; simpl String.length;
    try (by intros _ Hin; apply elem_of_nil in Hin); [lia|].
  intros Hlen. rewrite matchBraceTokens_cons.
  destruct (Ascii.eqb c "{" && nonEmpty (takeWord r) && startsWith (dropWord r) "}")
    eqn:Hmatch.
  - apply andb_true_iff in Hmatch as [[Hc Hne]%andb_true_iff Hclose].
    apply Ascii.eqb_eq in Hc as ->. apply startsWith_split in Hclose as [rest' Hrest].
    assert (String "{" r = ("{" +:+ takeWord r +:+ "}") +:+ rest') as Hpath.
    { rewrite <- (takeWord_dropWord r) at 1. rewrite Hrest.
      change (String "{" (takeWord r +:+ "}" +:+ rest'))
        with ("{" +:+ takeWord r +:+ "}" +:+ rest').
      by rewrite !append_assoc. }
    intros [->|Hin]%elem_of_cons.
    + exists (takeWord r). split; [done|]. split.
      * unfold tokenName. by rewrite Hne, takeWord_allWord.
      * rewrite Hpath. apply includes_startsWith, startsWith_append.
    + rewrite Hrest in Hin. change (substring1 ("}" +:+ rest')) with rest' in Hin.
      destruct (IH rest') as (name & -> & Hname & Hincl); [|done|].
      { pose proof (dropWord_length r) as Hdrop. rewrite Hrest in Hdrop.
        change (String.length ("}" +:+ rest')) with (S (String.length rest')) in Hdrop.
        lia. }
      exists name. split; [done|]. split; [done|].
      rewrite Hpath. by apply includes_append_r.
  - intros Hin. destruct (IH r) as (name & -> & Hname & Hincl); [lia | done |].
    exists name. split; [done|]. split; [done|].
    rewrite includes_cons, Hincl. apply orb_true_r.
Qed.

Lemma matchBraceTokens_complete_bounded n path name :
  String.length path ≤ n →
  tokenName name = true →
  includes path ("{" +:+ name +:+ "}") = true →
  "{" +:+ name +:+ "}" ∈ matchBraceTokens path.
Proof.
  intros Hlen [Hne Hword]%andb_true_iff. revert path Hlen.
  induction n as [|n IH]; intros [|c r]; simpl String.length; try done; [lia|].
  intros Hlen. rewrite includes_cons, matchBraceTokens_cons.
  destruct (startsWith (String c r) ("{" +:+ name +:+ "}")) eqn:Hstart.
  - intros _. apply startsWith_split in Hstart as [rest' Hpath].
    rewrite !append_assoc in Hpath.
    change ("{" +:+ name +:+ "}" +:+ rest') with (String "{" (name +:+ "}" +:+ rest'))
      in Hpath.
    injection Hpath as -> ->.
    destruct (takeWord_name name ("}" +:+ rest') Hword eq_refl) as [-> ->].
    rewrite Hne. cbn [Ascii.eqb Bool.eqb andb].
    change (startsWith ("}" +:+ rest') "}") with true. cbv iota.
    apply list_elem_of_here.
  - simpl orb. intros Hincl.
    destruct (Ascii.eqb c "{" && nonEmpty (takeWord r) && startsWith (dropWord r) "}")
      eqn:Hmatch; [|apply IH; [lia | done]].
    apply andb_true_iff in Hmatch as [_ Hclose].
    apply startsWith_split in Hclose as [rest' Hrest].
    apply list_elem_of_further. rewrite Hrest.
    change (substring1 ("}" +:+ rest')) with rest'.
    apply IH.
    + pose proof (dropWord_length r) as Hdrop. rewrite Hrest in Hdrop.
      change (String.length ("}" +:+ rest')) with (S (String.length rest')) in Hdrop.
      lia.
    + rewrite <- (takeWord_dropWord r), Hrest in Hincl.
      change ("{" +:+ name +:+ "}") with (String "{" (name +:+ "}")) in *.
      apply includes_skip_word in Hincl; [|apply takeWord_allWord].
      change ("}" +:+ rest') with (String "}" rest') in Hincl.
      rewrite includes_cons in Hincl. by apply orb_true_iff in Hincl as [Hno|Hyes].
Qed.

(** The path parameters of any path are the descriptors of the names that
    stand in braces in it. *)
Lemma extractPathParameters_elem path parameter :
  parameter ∈ extractPathParameters path
  ↔ ∃ name, parameter = pathParameter name ∧ tokenName name = true
            ∧ includes path ("{" +:+ name +:+ "}") = true.
Proof.
  unfold extractPathParameters. rewrite list_elem_of_In, in_map_iff.
  setoid_rewrite <- list_elem_of_In. split.
  - intros (token & <- & Hin).
    apply (matchBraceTokens_sound_bounded (String.length path)) in Hin
      as (name & -> & Hname & Hincl); [|done].
    exists name. split; [|done].
    apply andb_true_iff in Hname as [_ Hword]. by rewrite removeBraces_token.
  - intros (name & -> & Hname & Hincl). exists ("{" +:+ name +:+ "}"). split.
    + pose proof Hname as [_ Hword]%andb_true_iff. by rewrite removeBraces_token.
    + by apply (matchBraceTokens_complete_bounded (String.length path)).
Qed.

(** X16.  In every operation of the document the path parameters are
    exactly the names that stand in braces in its path key: each such name
    has its descriptor (required, string schema), and there is no path
    parameter without its placeholder in the path. *)
Theorem convertToOpenAPI_path_parameters this endpoints :
  apiData this ≫= api = Some endpoints →
  plainKeys endpoints = true →
  operationsSatisfy this endpoints (λ endpoint operation,
    ∀ parameter,
      parameter ∈ o_parameters operation ∧ p_in parameter = InPath
      ↔ ∃ name, parameter = pathParameter name ∧ tokenName name = true
                ∧ includes (pathOf endpoint) ("{" +:+ name +:+ "}") = true).
Proof.
  intros Hdata Hplain. apply operationsSatisfy_intro; [|done..]. intros endpoint used operation used' _ Hbuild parameter.
  rewrite (buildOperation_parameters _ _ _ _ _ _ Hbuild), !elem_of_app.
  rewrite extractPathParameters_elem.
  pose proof (extractQueryParameters_in endpoint) as Hquery.
  pose proof (extractHeaderParameters_in endpoint) as Hheader.
  rewrite Forall_forall in Hquery, Hheader. split.
  - intros [[Hpath|[Hin|Hin]] Hloc]; [done|..].
    + apply Hquery in Hin. congruence.
    + apply Hheader in Hin. congruence.
  - intros (name & -> & Hname & Hincl). split; [|done]. left. by exists name.
Qed.

Lemma convertToOpenAPI_path_parameters_witness :
  operationsSatisfy (converterWith (Some {| api := Some [mixedEndpoint; richEndpoint] |}))
    [mixedEndpoint; richEndpoint] (λ endpoint operation,
    ∀ parameter,
      parameter ∈ o_parameters operation ∧ p_in parameter = InPath
      ↔ ∃ name, parameter = pathParameter name ∧ tokenName name = true
                ∧ includes (pathOf endpoint) ("{" +:+ name +:+ "}") = true).
Proof.
  apply (convertToOpenAPI_path_parameters
           (converterWith (Some {| api := Some [mixedEndpoint; richEndpoint] |}))
           [mixedEndpoint; richEndpoint]).
  - reflexivity.
  - reflexivity.
Defined.

End Scanning.

(** ** The wrapper around the loaded data *)

Section Wrapper.

Lemma onlyWhiteSpace_paren x y : onlyWhiteSpace (x +:+ ")" +:+ y) = false.
Proof.
  induction x as [|c x IH]; [done|]. rewrite append_cons. simpl.
  rewrite IH. apply andb_false_r.
Qed.

(** What follows a parenthesis that is not the last one does not close the
    wrapper. *)
Lemma closesWrapper_paren x y : closesWrapper (x +:+ ")" +:+ y) = false.
Proof.
  unfold closesWrapper. rewrite onlyWhiteSpace_paren. simpl.
  destruct x as [|c x]; [done|]. rewrite append_cons.
  destruct (Ascii.eqb_spec c ";") as [->|Hc].
  - apply onlyWhiteSpace_paren.
  - destruct c as [[] [] [] [] [] [] [] []]; done.
Qed.

Lemma stripWrapperEnd_closing json tail :
  closesWrapper tail = true → stripWrapperEnd (json +:+ ")" +:+ tail) = json.
Proof.
  intros Htail. induction json as [|c json IH].
  - change ("" +:+ ")" +:+ tail) with (String ")" tail). simpl. by rewrite Htail.
  - rewrite append_cons. simpl. rewrite closesWrapper_paren, andb_false_r. by rewrite IH.
Qed.

Lemma stripWrapperEnd_no_paren data :
  allChars (λ c, negb (Ascii.eqb c ")")) data = true → stripWrapperEnd data = data.
Proof.
  induction data as [|c data IH]; [done|]. simpl.
  intros [Hc Hdata]%andb_true_iff. apply negb_true_iff in Hc. rewrite Hc. simpl.
  by rewrite IH.
Qed.

(** X17.  [processResponseData] undoes the wrapper: from [define(] followed
    by any text, a closing parenthesis, an optional semicolon and white
    space it returns exactly the text, also when the text itself contains
    parentheses. *)
Theorem processResponseData_unwraps json tail :
  closesWrapper tail = true →
  processResponseData ("define(" +:+ json +:+ ")" +:+ tail) = json.
Proof.
  intros Htail. unfold processResponseData.
  change (stripPrefix "define(" ("define(" +:+ json +:+ ")" +:+ tail))
    with (Some (json +:+ ")" +:+ tail)).
  by apply stripWrapperEnd_closing.
Qed.

Lemma processResponseData_unwraps_witness :
  processResponseData ("define(" +:+ "{api:[f(1),g(2)]}" +:+ ")" +:+ String ";" newline)
  = "{api:[f(1),g(2)]}".
Proof.
  apply (processResponseData_unwraps "{api:[f(1),g(2)]}" (String ";" newline)).
  reflexivity.
Defined.

(** X18.  Data without closing parenthesis is only relieved of a leading
    [define(]: without that prefix it is returned as it is, and with it the
    rest is returned. *)
Theorem processResponseData_unwrapped data :
  allChars (λ c, negb (Ascii.eqb c ")")) data = true →
  processResponseData ("define(" +:+ data) = data
  ∧ (stripPrefix "define(" data = None → processResponseData data = data).
Proof.
  intros Hdata. unfold processResponseData. split.
  - change (stripPrefix "define(" ("define(" +:+ data)) with (Some data).
    by apply stripWrapperEnd_no_paren.
  - intros ->. by apply stripWrapperEnd_no_paren.
Qed.

Lemma processResponseData_unwrapped_witness :
  processResponseData ("define(" +:+ "{api:[]}") = "{api:[]}"
  ∧ (stripPrefix "define(" "{api:[]}" = None → processResponseData "{api:[]}" = "{api:[]}").
Proof.
  apply (processResponseData_unwrapped "{api:[]}").
  reflexivity.
Defined.

End Wrapper.

(** ** The places of the document *)

Section Places.

(** X19.  In a run with plain keys a place of the document, that is a path
    key with a method key, is filled exactly when some record with a URL
    has that normalized path and that method in lower case, the method not
    being [__proto__]: no such record is lost, and nothing else is in the
    document. *)
Theorem convertToOpenAPI_places this endpoints :
  apiData this ≫= api = Some endpoints →
  plainKeys endpoints = true →
  ∃ openAPISpec this',
    convertToOpenAPI this = (Returns openAPISpec, this')
    ∧ ∀ path method,
        is_Some (operationAt (paths openAPISpec) path method)
        ↔ method ≠ "__proto__"
          ∧ ∃ endpoint,
              endpoint ∈ endpoints
              ∧ convertible endpoint = true
              ∧ pathOf endpoint = path
              ∧ methodOf endpoint = method.
Proof.
  intros Hdata Hplain.
  destruct (convertToOpenAPI_returns _ _ Hdata (plainKeys_groups _ Hplain))
    as (openAPISpec & this' & Hcall & Hrun).
  exists openAPISpec, this'. split; [done|].
  intros path method. split.
  - intros [operation Hat].
    destruct (forEachConvertEndpoint_origin _ _ _ _ _ Hrun _ _ _ Hat)
      as [Hempty|[(endpoint & used & used' & Hin & Hurl & Hpath & Hmethod & _) Hproto]].
    { unfold operationAt in Hempty. by rewrite lookup_empty in Hempty. }
    split; [done|]. by exists endpoint.
  - intros (Hproto & endpoint & Hin & Hurl & <- & <-).
    eapply forEachConvertEndpoint_fills; [done..| |done].
    by eapply plainPaths_elem; [apply plainKeys_paths|..].
Qed.

Lemma convertToOpenAPI_places_witness :
  ∃ openAPISpec this',
    convertToOpenAPI
      (converterWith (Some {| api := Some [firstVersion; withoutUrl; secondVersion] |}))
    = (Returns openAPISpec, this')
    ∧ ∀ path method,
        is_Some (operationAt (paths openAPISpec) path method)
        ↔ method ≠ "__proto__"
          ∧ ∃ endpoint,
              endpoint ∈ [firstVersion; withoutUrl; secondVersion]
              ∧ convertible endpoint = true
              ∧ pathOf endpoint = path
              ∧ methodOf endpoint = method.
Proof.
  apply (convertToOpenAPI_places
           (converterWith (Some {| api := Some [firstVersion; withoutUrl; secondVersion] |}))
           [firstVersion; withoutUrl; secondVersion]).
  - reflexivity.
  - reflexivity.
Defined.

End Places.

(** ** Names that every object inherits, and characters beyond ASCII *)

Section InheritedNames.

(** A record filed under [constructor] makes the conversion throw, also
    when it has no URL. *)
Example convertToOpenAPI_group_constructor :
  convertToOpenAPI
    (converterWith
       (Some {| api := Some [companyStats; endpointOf None None None (Some "constructor")] |}))
  = (TypeError,
     converterWith
       (Some {| api := Some [companyStats; endpointOf None None None (Some "constructor")] |})).
Proof. reflexivity. Qed.

(** The URL [toString] gives no path key, and the method [__proto__] gives
    no operation: the document of these two records has the path [/a] with
    an empty path item, while the ledger holds the two identifiers. *)
Example convertToOpenAPI_inherited_keys :
  ∃ openAPISpec this',
    convertToOpenAPI
      (converterWith
         (Some {| api := Some [ inheritedPath;
                                endpointOf (Some "__proto__") (Some "/a") None None ] |}))
    = (Returns openAPISpec, this')
    ∧ paths openAPISpec = {[ "/a" := ∅ ]}
    ∧ usedOperationIds this' = {[ "GetToString"; "__proto__A" ]}.
Proof.
  eexists _, _. split; [reflexivity|]. split; vm_compute; reflexivity.
Qed.

(** A field named [__proto__] gives no property, and is required all the
    same when it is not optional. *)
Example buildRequestBodySchema_proto :
  buildRequestBodySchema
    [ {| f_field := Some "__proto__"; f_type := Some "String"; f_optional := false;
         f_description := None |} ]
  = (∅, [Some "__proto__"]).
Proof. reflexivity. Qed.

(** The no-break space is white space: a name made of it is blank, and the
    record receives the fallback identifier. *)
Example generateOperationId_no_break_space :
  generateOperationId
    (endpointOf None (Some "/a/b") (Some (String (ascii_of_nat 160) EmptyString))
       (Some "Server"))
  = "GetAB".
Proof. reflexivity. Qed.

(** The case conversions on the Latin-1 range. *)
Example toLowerCase_latin :
  toLowerCase (String (ascii_of_nat 192) (String (ascii_of_nat 215) "B"))
  = String (ascii_of_nat 224) (String (ascii_of_nat 215) "b")
  ∧ toUpperCase (String (ascii_of_nat 223) (String (ascii_of_nat 233) "b"))
    = String "S" (String "S" (String (ascii_of_nat 201) "B")).
Proof. split; reflexivity. Qed.

End InheritedNames.

(** ** The tests of the repository *)

Section RepositoryTests.

Example generateOperationId_from_name :
  generateOperationId
    (endpointOf (Some "get") (Some "/users/profile") (Some "GetUserProfile") None)
  = "UsersProfileGetUserProfile".
Proof. reflexivity. Qed.

Example generateOperationId_generic_name :
  generateOperationId minecraftDetails
  = "GameMinecraftServicesIdGameserversGamesMinecraftDetails".
Proof. reflexivity. Qed.

Example generateOperationId_path_parameters :
  generateOperationId
    (endpointOf (Some "post") (Some "/services/:service_id/gameservers/:id") None None)
  = "PostServicesServiceIdGameserversId".
Proof. reflexivity. Qed.

Example generateOperationId_missing_url :
  generateOperationId (endpointOf (Some "get") None (Some "TestOperation") None)
  = "TestOperation".
Proof. reflexivity. Qed.

Example generateOperationId_deep_url :
  generateOperationId
    (endpointOf (Some "get") (Some "/very/deep/path/structure/with/many/parts")
       (Some "Get") None)
  = "VeryDeepPathStructureWithManyPartsGet".
Proof. reflexivity. Qed.

Example addPathContextIfNeeded_last_two :
  generateOperationId (endpointOf (Some "get") (Some "/a/b/c/d") (Some "Frobnicate") None)
  = "CDFrobnicate".
Proof. reflexivity. Qed.

Example ensureUniqueOperationId_multiple_duplicates :
  ensureUniqueOperationId "TestId" {["TestId"; "TestId2"]}
  = Some ("TestId3", {["TestId3"; "TestId"; "TestId2"]}).
Proof. vm_compute. reflexivity. Qed.

Example parseParameterType_types :
  map parseParameterType
    [Some "String"; Some "Integer"; Some "Number"; Some "Boolean"; Some "Array";
     Some "Object"; Some "UnknownType"; None]
  = [StringSchema; IntegerSchema; IntegerSchema; BooleanSchema; ArraySchema StringSchema;
     ObjectSchema; StringSchema; StringSchema].
Proof. reflexivity. Qed.

Example normalizePath_multiple_parameters :
  normalizePath "/services/:service_id/users/:user_id/items/:item_id"
  = "/services/{service_id}/users/{user_id}/items/{item_id}"
  ∧ map p_name
      (extractPathParameters "/services/{service_id}/users/{user_id}/items/{item_id}")
    = [Some "service_id"; Some "user_id"; Some "item_id"].
Proof. split; reflexivity. Qed.

Example convertEndpoint_mixed_parameters :
  (λ result, map (λ p, (p_name p, p_in p, p_required p)) (o_parameters result.1))
    <$> buildOperation mixedEndpoint (pathOf mixedEndpoint) (methodOf mixedEndpoint) ∅
  = Some [ (Some "service_id", InPath, true); (Some "user_id", InPath, true);
           (Some "query_param", InQuery, true); (Some "X-Custom-Header", InHeader, false) ].
Proof. vm_compute. reflexivity. Qed.

Example convertEndpoint_without_url :
  convertEndpoint (endpointOf (Some "get") None (Some "InvalidEndpoint") None) ∅ ∅
  = Some (∅, ∅).
Proof. reflexivity. Qed.

Example addResponses_defaults :
  dom (addResponses companyStats) = {["200"; "401"; "403"; "404"; "500"]}.
Proof. vm_compute. reflexivity. Qed.

End RepositoryTests.
